(** * Shopping-list aggregation engine of [app.py]

    A shallow embedding of the pure core of the application:
    [merge_ingredients], [build_final_list], [subtract_stock] and
    [add_ingredient_to_catalogue], followed by the properties stated for
    them.

    Modelling choices.
    - Python's [dict] keeps insertion order and that order is observable
      (it fixes the order of sections and of the items handed to the
      stable sort), so a dict is an association list with unique keys:
      assigning to an existing key replaces the value in place, assigning
      to a new key appends at the end.
    - Strings are [string]s holding the UTF-8 bytes of the Python text;
      byte-wise lexicographic comparison coincides with Python's
      code-point comparison.
    - [str.lower] is a parameter [lower] of the development: every
      universal statement holds for any lowering function.  Concrete
      evaluations use [ascii_lower] on ASCII names, where it agrees with
      [str.lower].
    - Quantities are Python integers (the forms only produce integers
      >= 1), hence [Z]. *)

From Stdlib Require Import List String Ascii ZArith Bool Lia.
From Stdlib Require Import Permutation Sorting.Sorted.
From Stdlib Require DecimalString DecimalZ DecimalPos.
Import ListNotations.

Local Open Scope Z_scope.

(** ** Insertion-ordered dictionaries *)

Module Dict.
Section Defs.
Context {K V : Type}.
Variable eq_dec : forall a b : K, {a = b} + {a <> b}.

Definition t := list (K * V).

(** [d.get(k)] / [d[k]] *)
Fixpoint get (k : K) (d : list (K * V)) : option V :=
  match d with
  | [] => None
  | (k', v) :: d' => if eq_dec k k' then Some v else get k d'
  end.

(** [k in d] *)
Definition mem (k : K) (d : list (K * V)) : bool :=
  match get k d with Some _ => true | None => false end.

(** [d[k] = v] *)
Fixpoint set (k : K) (v : V) (d : list (K * V)) : list (K * V) :=
  match d with
  | [] => [(k, v)]
  | (k', v') :: d' =>
      if eq_dec k k' then (k', v) :: d' else (k', v') :: set k v d'
  end.

Definition keys (d : list (K * V)) : list K := map fst d.
Definition values (d : list (K * V)) : list V := map snd d.
End Defs.
End Dict.

(** ** Strings *)

Definition str_eqb (a b : string) : bool :=
  if string_dec a b then true else false.

(** [x in l] for a list of strings *)
Definition str_in (x : string) (l : list string) : bool :=
  if in_dec string_dec x l then true else false.

Definition ascii_lower_char (c : ascii) : ascii :=
  let n := nat_of_ascii c in
  if andb (Nat.leb 65 n) (Nat.leb n 90) then ascii_of_nat (n + 32) else c.

(** [str.lower] on ASCII text. *)
Fixpoint ascii_lower (s : string) : string :=
  match s with
  | EmptyString => EmptyString
  | String c s' => String (ascii_lower_char c) (ascii_lower s')
  end.

(** [list.sort(key=...)] / [sorted]: a stable sort on string keys.  The
    head of the list is put in front of the first element of the sorted
    tail whose key is not smaller, which keeps equal keys in input order. *)
Section Sort.
Context {A : Type}.
Variable key : A -> string.

Fixpoint insert_by (x : A) (l : list A) : list A :=
  match l with
  | [] => [x]
  | y :: l' =>
      if String.leb (key x) (key y) then x :: y :: l'
      else y :: insert_by x l'
  end.

Definition sort_by (l : list A) : list A := fold_right insert_by [] l.
End Sort.

(** ** Data *)

(** An ingredient occurrence: a dict with keys "nom", "rayon" and the
    optional keys "quantite" and "unite". *)
Record ingredient := mk_ingredient {
  nom : string;
  rayon : string;
  quantite : option Z;
  unite : option string
}.

(** [ing.get("quantite", 1)] *)
Definition get_quantite (ing : ingredient) : Z :=
  match quantite ing with Some q => q | None => 1 end.

(** [ing.get("unite", "pièce")] *)
Definition get_unite (ing : ingredient) : string :=
  match unite ing with Some u => u | None => "pièce"%string end.

(** A value of the working map [merged]. *)
Record merged_entry := mk_entry {
  m_rayon : string;
  m_nom : string;
  m_quantite : Z;
  m_unite : string
}.

(** A tuple [(nom, quantite, unite)]. *)
Definition item : Type := string * Z * string.

Definition item_nom (x : item) : string := fst (fst x).
Definition item_quantite (x : item) : Z := snd (fst x).
Definition item_unite (x : item) : string := snd x.

(** [{rayon: [(nom, quantite, unite), ...]}] *)
Definition grouping : Type := list (string * list item).

Definition mkey : Type := string * string.

Definition mkey_dec (a b : mkey) : {a = b} + {a <> b}.
Proof.
  destruct a as [a1 a2], b as [b1 b2].
  destruct (string_dec a1 b1) as [H1 | H1].
  - destruct (string_dec a2 b2) as [H2 | H2].
    + left. rewrite H1, H2. reflexivity.
    + right. intro E. apply H2. inversion E. reflexivity.
  - right. intro E. apply H1. inversion E. reflexivity.
Defined.

Definition add_quantite (e : merged_entry) (qty : Z) : merged_entry :=
  mk_entry (m_rayon e) (m_nom e) (m_quantite e + qty) (m_unite e).

Section Engine.
(** [str.lower] *)
Variable lower : string -> string.

(** *** merge_ingredients *)

Definition primary_key (ing : ingredient) : mkey :=
  (lower (nom ing), rayon ing).

(** [(nom.lower() + f"_{unite}", rayon)] *)
Definition alt_name (ing : ingredient) : string :=
  (lower (nom ing) ++ "_" ++ get_unite ing)%string.

Definition alt_key (ing : ingredient) : mkey :=
  (alt_name ing, rayon ing).

Definition new_entry (ing : ingredient) : merged_entry :=
  mk_entry (rayon ing) (nom ing) (get_quantite ing) (get_unite ing).

(** Body of the first loop of [merge_ingredients]. *)
Definition merge_step (merged : list (mkey * merged_entry))
    (ing : ingredient) : list (mkey * merged_entry) :=
  let qty := get_quantite ing in
  let key := primary_key ing in
  match Dict.get mkey_dec key merged with
  | Some e =>
      if str_eqb (m_unite e) (get_unite ing) then
        Dict.set mkey_dec key (add_quantite e qty) merged
      else
        let alt := alt_key ing in
        match Dict.get mkey_dec alt merged with
        | Some e' => Dict.set mkey_dec alt (add_quantite e' qty) merged
        | None => Dict.set mkey_dec alt (new_entry ing) merged
        end
  | None => Dict.set mkey_dec key (new_entry ing) merged
  end.

Definition merge_loop (ingredients_list : list ingredient)
  : list (mkey * merged_entry) :=
  fold_left merge_step ingredients_list [].

Definition entry_item (data : merged_entry) : item :=
  (m_nom data, m_quantite data, m_unite data).

(** Body of the second loop: append the tuple to its section's list,
    creating the list first when the section is new. *)
Definition group_step (result : grouping) (data : merged_entry)
  : grouping :=
  let r := m_rayon data in
  let cur :=
    match Dict.get string_dec r result with
    | Some l => l
    | None => []
    end in
  Dict.set string_dec r (cur ++ [entry_item data]) result.

Definition group_by_rayon (entries : list merged_entry) : grouping :=
  fold_left group_step entries [].

(** [result[rayon].sort(key=lambda x: x[0].lower())] for every section *)
Definition sort_sections (result : grouping) : grouping :=
  map (fun p => (fst p, sort_by (fun x => lower (item_nom x)) (snd p)))
      result.

Definition merge_ingredients (ingredients_list : list ingredient)
  : grouping :=
  sort_sections
    (group_by_rayon (Dict.values (merge_loop ingredients_list))).

(** *** build_final_list *)

(** The dicts appended to [all_items] for one grouping. *)
Definition flatten_grouping (g : grouping) : list ingredient :=
  flat_map
    (fun p =>
       map (fun x =>
              mk_ingredient (item_nom x) (fst p)
                            (Some (item_quantite x)) (Some (item_unite x)))
           (snd p))
    g.

Definition rayon_order : list string :=
  [ "BOULANGERIE"; "LÉGUMES"; "FRUITS"; "AIL & FINES HERBES";
    "CHARCUTERIE"; "TRAITEUR"; "POISSONNERIE"; "BOUCHERIE";
    "SURGELÉS"; "FROMAGES"; "YAOURTS"; "PRODUITS LAITIERS";
    "ÉPICERIE SALÉE"; "CUISINE DU MONDE"; "ÉPICERIE SUCRÉE";
    "BOISSONS"; "NOURRITURE BÉBÉ"; "HYGIÈNE & DIVERS" ]%string.

(** [final[rayon] = merged[rayon]] when [rayon in merged] *)
Definition copy_rayon (merged : grouping) (final : grouping)
    (r : string) : grouping :=
  match Dict.get string_dec r merged with
  | Some items => Dict.set string_dec r items final
  | None => final
  end.

(** [sorted(set(merged.keys()) - set(rayon_order))]: the set difference
    has no duplicates, so its sorted listing does not depend on the
    iteration order of the set. *)
Definition other_rayons (merged : grouping) : list string :=
  sort_by (fun s => s)
    (nodup string_dec
       (filter (fun r => negb (str_in r rayon_order))
               (Dict.keys merged))).

Definition order_rayons (merged : grouping) : grouping :=
  let final := fold_left (copy_rayon merged) rayon_order [] in
  fold_left (copy_rayon merged) (other_rayons merged) final.

Definition build_final_list (recipe_items_by_rayon
    free_items_by_rayon : grouping) : grouping :=
  let all_items :=
    flatten_grouping recipe_items_by_rayon
    ++ flatten_grouping free_items_by_rayon in
  order_rayons (merge_ingredients all_items).

(** *** subtract_stock *)

Record stock_entry := mk_stock {
  s_quantite : Z;
  s_unite : string
}.

(** The (nom, qty, unite) triples of a grouping in iteration order,
    each with its section. *)
Definition stock_triples (stock_items : grouping)
  : list (string * item) :=
  flat_map (fun p => map (fun x => (fst p, x)) (snd p)) stock_items.

(** Body of the indexing loop. *)
Definition index_step (stock_index : list (mkey * stock_entry))
    (rx : string * item) : list (mkey * stock_entry) :=
  let r := fst rx in
  let x := snd rx in
  let key := (lower (item_nom x), r) in
  match Dict.get mkey_dec key stock_index with
  | Some st =>
      if str_eqb (s_unite st) (item_unite x) then
        Dict.set mkey_dec key
          (mk_stock (s_quantite st + item_quantite x) (s_unite st))
          stock_index
      else
        Dict.set mkey_dec key
          (mk_stock (item_quantite x) (item_unite x)) stock_index
  | None =>
      Dict.set mkey_dec key
        (mk_stock (item_quantite x) (item_unite x)) stock_index
  end.

Definition build_stock_index (stock_items : grouping)
  : list (mkey * stock_entry) :=
  fold_left index_step (stock_triples stock_items) [].

(** What the inner loop appends to [new_items] for one list item. *)
Definition subtract_item (stock_index : list (mkey * stock_entry))
    (r : string) (x : item) : list item :=
  let key := (lower (item_nom x), r) in
  match Dict.get mkey_dec key stock_index with
  | Some stock =>
      if str_eqb (s_unite stock) (item_unite x) then
        let remaining := item_quantite x - s_quantite stock in
        if 0 <? remaining then [(item_nom x, remaining, item_unite x)]
        else []
      else [x]
  | None => [x]
  end.

Definition subtract_rayon (stock_index : list (mkey * stock_entry))
    (result : grouping) (p : string * list item) : grouping :=
  let new_items := flat_map (subtract_item stock_index (fst p)) (snd p) in
  match new_items with
  | [] => result
  | _ :: _ => Dict.set string_dec (fst p) new_items result
  end.

Definition subtract_stock (final_list stock_items : grouping)
  : grouping :=
  fold_left (subtract_rayon (build_stock_index stock_items))
            final_list [].

(** *** add_ingredient_to_catalogue *)

Record cat_rayon := mk_cat_rayon {
  cat_nom : string;
  articles : list string
}.

(** The catalogue is mutated in place; the function is modelled as
    returning the new catalogue together with the boolean result. *)
Fixpoint add_ingredient_to_catalogue (catalogue : list cat_rayon)
    (nom_ingredient rayon_nom : string) : list cat_rayon * bool :=
  match catalogue with
  | [] => ([mk_cat_rayon rayon_nom [nom_ingredient]], true)
  | r :: rest =>
      if str_eqb (cat_nom r) rayon_nom then
        let existing_lower := map lower (articles r) in
        if negb (str_in (lower nom_ingredient) existing_lower) then
          (mk_cat_rayon (cat_nom r)
             (sort_by lower (articles r ++ [nom_ingredient])) :: rest,
           true)
        else (r :: rest, false)
      else
        let res := add_ingredient_to_catalogue rest nom_ingredient
                     rayon_nom in
        (r :: fst res, snd res)
  end.

End Engine.

Definition occ (n r : string) (q : Z) (u : string) : ingredient :=
  mk_ingredient n r (Some q) (Some u).

(** ** Reference descriptions used in the statements *)

(** The indexing policy on one key, as a fold over the stock entries
    recorded under that key: the first entry is recorded, a later entry
    with the recorded unit adds its quantity, a later entry with another
    unit replaces quantity and unit. *)
Definition combine_stock (acc : option stock_entry) (x : item)
  : option stock_entry :=
  match acc with
  | None => Some (mk_stock (item_quantite x) (item_unite x))
  | Some st =>
      if str_eqb (s_unite st) (item_unite x)
      then Some (mk_stock (s_quantite st + item_quantite x) (s_unite st))
      else Some (mk_stock (item_quantite x) (item_unite x))
  end.

Section Descriptions.
Variable lower : string -> string.

Definition stock_key (rx : string * item) : mkey :=
  (lower (item_nom (snd rx)), fst rx).

(** The stock tuples filed under key [k], in iteration order. *)
Definition stock_entries_for (k : mkey) (stock_items : grouping)
  : list item :=
  map snd
    (filter (fun rx => if mkey_dec (stock_key rx) k then true else false)
            (stock_triples stock_items)).

(** Sections of the built list after subtraction, sections left without
    items being skipped. *)
Definition subtract_sections (idx : list (mkey * stock_entry))
    (final_list : grouping) : grouping :=
  flat_map
    (fun p =>
       match flat_map (subtract_item lower idx (fst p)) (snd p) with
       | [] => []
       | x :: l => [(fst p, x :: l)]
       end)
    final_list.

End Descriptions.

(** *** Combinations (name lowercased, section, unit) *)

Definition combo : Type := string * string * string.

Definition combo_dec (a b : combo) : {a = b} + {a <> b}.
Proof.
  destruct a as [[a1 a2] a3], b as [[b1 b2] b3].
  destruct (string_dec a1 b1) as [H1 | H1];
    [| right; intro E; apply H1; inversion E; reflexivity].
  destruct (string_dec a2 b2) as [H2 | H2];
    [| right; intro E; apply H2; inversion E; reflexivity].
  destruct (string_dec a3 b3) as [H3 | H3];
    [| right; intro E; apply H3; inversion E; reflexivity].
  left. rewrite H1, H2, H3. reflexivity.
Defined.

Section Combos.
Variable lower : string -> string.

Definition ing_combo (a : ingredient) : combo :=
  (lower (nom a), rayon a, get_unite a).

Definition entry_combo (e : merged_entry) : combo :=
  (lower (m_nom e), m_rayon e, m_unite e).

Definition has_combo (c : combo) (a : ingredient) : bool :=
  if combo_dec (ing_combo a) c then true else false.

(** Sum of the quantities of the occurrences of [l] with combination [c]. *)
Definition qsum (l : list ingredient) (c : combo) : Z :=
  fold_right Z.add 0 (map get_quantite (filter (has_combo c) l)).

(** The two shapes of key under which an entry can be filed. *)
Definition entry_primary_key (e : merged_entry) : mkey :=
  (lower (m_nom e), m_rayon e).

Definition entry_alt_key (e : merged_entry) : mkey :=
  ((lower (m_nom e) ++ "_" ++ m_unite e)%string, m_rayon e).

(** Two occurrences of one section do not clash when the lowercased name
    of the first is not the unit-suffixed name of the second, and their
    unit-suffixed names agree only if name and unit agree. *)
Definition no_clash (a b : ingredient) : bool :=
  if string_dec (rayon a) (rayon b) then
    negb (str_eqb (lower (nom a)) (alt_name lower b))
    && (if str_eqb (alt_name lower a) (alt_name lower b)
        then str_eqb (lower (nom a)) (lower (nom b))
             && str_eqb (get_unite a) (get_unite b)
        else true)
  else true.

(** No key of the working map can stand for two different combinations. *)
Definition collision_free (l : list ingredient) : bool :=
  forallb (fun a => forallb (no_clash a) l) l.

(** An output item with its name lowercased. *)
Definition norm_item (x : item) : item :=
  (lower (item_nom x), item_quantite x, item_unite x).

(** The tuples of the entries filed in section [r], in the order of the
    working map. *)
Definition rayon_entries (r : string) (entries : list merged_entry)
  : list item :=
  map entry_item (filter (fun e => str_eqb (m_rayon e) r) entries).

(** The items listed under section [r] by [merge_ingredients], none when
    the section is absent. *)
Definition section_items (l : list ingredient) (r : string) : list item :=
  match Dict.get string_dec r (merge_ingredients lower l) with
  | Some items => items
  | None => []
  end.

(** The item expected for the combination of occurrence [a]: lowercased
    name, summed quantity, unit. *)
Definition expected_item (l : list ingredient) (a : ingredient) : item :=
  (lower (nom a), qsum l (ing_combo a), get_unite a).

(** Combination of an output item listed under section [r]. *)
Definition item_combo (r : string) (x : item) : combo :=
  (lower (item_nom x), r, item_unite x).

(** The output entries of section [r] whose name is [n] up to case. *)
Definition name_buckets (l : list ingredient) (n r : string) : list item :=
  filter (fun x => str_eqb (lower (item_nom x)) n) (section_items l r).

(** The distinct units carried by the occurrences of name [n] (lowercased)
    in section [r]. *)
Definition units_of (l : list ingredient) (n r : string) : list string :=
  nodup string_dec
    (map get_unite
       (filter (fun a => str_eqb (lower (nom a)) n && str_eqb (rayon a) r)
               l)).

(** Total quantity listed in the output for combination [c]. *)
Definition output_total (l : list ingredient) (c : combo) : Z :=
  let r := snd (fst c) in
  fold_right Z.add 0
    (map item_quantite
       (filter (fun x => if combo_dec (item_combo r x) c then true
                         else false)
               (section_items l r))).

Definition clash_free (l : list ingredient) : Prop :=
  forall a b, In a l -> In b l -> no_clash a b = true.

(** What the working map [m] satisfies after the occurrences [l] have
    been processed, when no two of them clash. *)
Record merge_inv (l : list ingredient) (m : list (mkey * merged_entry))
  : Prop := {
  inv_shape : forall k e,
    Dict.get mkey_dec k m = Some e ->
    k = entry_primary_key e \/ k = entry_alt_key e;
  inv_origin : forall k e,
    Dict.get mkey_dec k m = Some e ->
    exists b, In b l /\ ing_combo b = entry_combo e;
  inv_primary : forall k e,
    Dict.get mkey_dec k m = Some e ->
    Dict.get mkey_dec (entry_primary_key e) m <> None;
  inv_sum : forall k e,
    Dict.get mkey_dec k m = Some e ->
    m_quantite e = qsum l (entry_combo e);
  inv_distinct : forall k1 e1 k2 e2,
    Dict.get mkey_dec k1 m = Some e1 ->
    Dict.get mkey_dec k2 m = Some e2 ->
    entry_combo e1 = entry_combo e2 -> k1 = k2;
  inv_complete : forall a,
    In a l ->
    exists k e, Dict.get mkey_dec k m = Some e
                /\ entry_combo e = ing_combo a
}.

End Combos.

(** *** Order on strings and on sort keys *)

Definition str_lt (a b : string) : Prop := String.ltb a b = true.
Definition str_le (a b : string) : Prop := String.leb a b = true.

Section KeyOrder.
Context {A : Type}.
Variable key : A -> string.

Definition key_le (x y : A) : Prop := str_le (key x) (key y).

End KeyOrder.

(** *** Sections copied by the List Builder *)

Section Copied.
Variable merged : grouping.

Definition in_merged (r : string) : bool := Dict.mem string_dec r merged.

(** Value found for a section once it has been copied from [merged]. *)
Definition copied (r : string) (before : option (list item))
  : option (list item) :=
  match Dict.get string_dec r merged with
  | Some items => Some items
  | None => before
  end.

End Copied.

(** *** Catalogue and loop descriptions *)

Section LoopCases.
Variable lower : string -> string.

(** No two articles of the section agree up to case. *)
Definition articles_unique (r : cat_rayon) : Prop :=
  NoDup (map lower (articles r)).

(** The four branches of the loop body. *)
Inductive merge_case (m : list (mkey * merged_entry)) (a : ingredient)
  : list (mkey * merged_entry) -> Prop :=
| case_new :
    Dict.get mkey_dec (primary_key lower a) m = None ->
    merge_case m a (Dict.set mkey_dec (primary_key lower a) (new_entry a) m)
| case_add e :
    Dict.get mkey_dec (primary_key lower a) m = Some e ->
    m_unite e = get_unite a ->
    merge_case m a
      (Dict.set mkey_dec (primary_key lower a) (add_quantite e (get_quantite a)) m)
| case_alt_add e e' :
    Dict.get mkey_dec (primary_key lower a) m = Some e ->
    m_unite e <> get_unite a ->
    Dict.get mkey_dec (alt_key lower a) m = Some e' ->
    merge_case m a
      (Dict.set mkey_dec (alt_key lower a) (add_quantite e' (get_quantite a)) m)
| case_alt_new e :
    Dict.get mkey_dec (primary_key lower a) m = Some e ->
    m_unite e <> get_unite a ->
    Dict.get mkey_dec (alt_key lower a) m = None ->
    merge_case m a (Dict.set mkey_dec (alt_key lower a) (new_entry a) m).

End LoopCases.

(** ** Sample data for the evaluations *)

Definition dairy : string := "Dairy"%string.

(** A name that is the unit-suffixed form of another name of the section. *)
Definition clash_input : list ingredient :=
  [occ "milk_ml" dairy 1 "L"; occ "Milk" dairy 1 "L";
   occ "Milk" dairy 500 "ml"].

Definition milk_twice : list ingredient :=
  [occ "Milk" dairy 1 "L"; occ "milk" dairy 1 "L"].

Definition three_units : list ingredient :=
  [occ "Milk" dairy 1 "L"; occ "Milk" dairy 500 "ml";
   occ "Milk" dairy 25 "cl"; occ "milk" dairy 250 "ml";
   occ "Milk" dairy 50 "cl"].

Definition milk_list : grouping :=
  [(dairy, [("Milk"%string, 2, "L"%string); ("Butter"%string, 1, "pièce"%string)]);
   ("Bakery"%string, [("Bread"%string, 1, "pièce"%string)])].

Definition milk_stock : grouping :=
  [(dairy, [("milk"%string, 1, "L"%string); ("Butter"%string, 250, "g"%string)]);
   ("Bakery"%string, [("Bread"%string, 3, "pièce"%string)])].

Definition small_catalogue : list cat_rayon :=
  [mk_cat_rayon "FRUITS" ["banane"; "Pomme"]%string].

(** ** Other functions of the application *)

(** [str(n)] of an integer, as an f-string inserts it. *)
Definition str_of_int (n : Z) : string :=
  DecimalString.NilZero.string_of_int (Z.to_int n).

(** [format_item] *)
Definition format_item (nom : string) (quantite : Z) (unite : string)
  : string :=
  if str_eqb unite "pièce" then
    if quantite =? 1 then nom
    else (nom ++ " (x" ++ str_of_int quantite ++ ")")%string
  else (nom ++ " (" ++ str_of_int quantite ++ unite ++ ")")%string.

(** A recipe: a dict with keys "nom" and "ingredients". *)
Record recette := mk_recette {
  recette_nom : string;
  recette_ingredients : list ingredient
}.

(** [get_recipe_ingredients] *)
Definition get_recipe_ingredients (recettes : list recette)
    (selected_names : list string) : list ingredient :=
  fold_left
    (fun ingredients recette =>
       if str_in (recette_nom recette) selected_names
       then ingredients ++ recette_ingredients recette
       else ingredients)
    recettes [].

(** Computation of the final list once the selected recipes, the checked
    articles and the stock have been read from the session. *)
Definition compute_final_list (lower : string -> string)
    (recettes : list recette) (selected_recipes_final : list string)
    (free_items_final stock_items_final : grouping) : grouping :=
  let recipe_ingredients_final :=
    get_recipe_ingredients recettes selected_recipes_final in
  let recipe_by_rayon_final :=
    merge_ingredients lower recipe_ingredients_final in
  let final_list_before_stock :=
    build_final_list lower recipe_by_rayon_final free_items_final in
  subtract_stock lower final_list_before_stock stock_items_final.

(** *** export_to_notion: the blocks and their batches *)




(** [range(start, stop, step)] for a positive step; [stop] steps are
    always enough. *)
Fixpoint range_from (fuel start stop step : nat) : list nat :=
  match fuel with
  | O => []
  | S fuel' =>
      if (start <? stop)%nat
      then start :: range_from fuel' (start + step) stop step
      else []
  end.

Definition py_range (start stop step : nat) : list nat :=
  range_from stop start stop step.

Section Batches.
Context {A : Type}.

(** [children[:100]], sent with the request that creates the page. *)
Definition first_batch (children : list A) : list A := firstn 100 children.

(** The batches [children[i:i+100]] patched in once the page has been
    created, when there are more than 100 blocks. *)
Definition next_batches (children : list A) : list (list A) :=
  if (100 <? List.length children)%nat
  then map (fun i => firstn 100 (skipn i children))
           (py_range 100 (List.length children) 100)
  else [].

End Batches.


(** *** The recipe forms *)

(** Outcome of a save button: an error message, or the new recipes and
    catalogue with the flag telling whether the catalogue is saved. *)
Inductive form_result :=
| FormError (message : string)
| FormSaved (recettes : list recette) (catalogue : list cat_rayon)
    (catalogue_modified : bool).

(** [for r in recettes: if r["nom"] == choix: r["nom"] = new_name;
    r["ingredients"] = ...; break] *)
Fixpoint rename_first (choix new_name : string)
    (new_ingredients : list ingredient) (recettes : list recette)
  : list recette :=
  match recettes with
  | [] => []
  | r :: rest =>
      if str_eqb (recette_nom r) choix
      then mk_recette new_name new_ingredients :: rest
      else r :: rename_first choix new_name new_ingredients rest
  end.

(** [recettes[:] = [r for r in recettes if r["nom"] != choix]] *)
Definition delete_recipe (choix : string) (recettes : list recette)
  : list recette :=
  filter (fun r => negb (str_eqb (recette_nom r) choix)) recettes.

(** Lowercased recipe names. *)
Definition recipe_keys (lower : string -> string)
    (recettes : list recette) : list string :=
  map (fun r => lower (recette_nom r)) recettes.

(** ** The catalogue loop of the recipe forms *)

Section CatalogueLoop.
Variable lower : string -> string.

(** The loop run when a recipe is saved:
    [for ing in ...: if add_ingredient_to_catalogue(catalogue, ing["nom"],
    ing["rayon"]): catalogue_modified = True], from a given value of the
    flag; the catalogue is saved afterwards when the flag is set. *)
Fixpoint add_ingredients_to_catalogue (catalogue : list cat_rayon)
    (ingredients : list ingredient) (catalogue_modified : bool)
  : list cat_rayon * bool :=
  match ingredients with
  | [] => (catalogue, catalogue_modified)
  | ing :: rest =>
      let res :=
        add_ingredient_to_catalogue lower catalogue (nom ing) (rayon ing) in
      add_ingredients_to_catalogue (fst res) rest
        (if snd res then true else catalogue_modified)
  end.

(** [n] is, up to case, an article of the first section named [r]. *)
Fixpoint in_catalogue (catalogue : list cat_rayon) (n r : string) : bool :=
  match catalogue with
  | [] => false
  | s :: rest =>
      if str_eqb (cat_nom s) r
      then str_in (lower n) (map lower (articles s))
      else in_catalogue rest n r
  end.

End CatalogueLoop.

Section RecipeForms.
Variable lower : string -> string.
(** [str.strip] *)
Variable strip : string -> string.

(** Button "Enregistrer la recette" of a new recipe. *)
Definition save_new_recipe (recettes : list recette)
    (catalogue : list cat_rayon) (recipe_name : string)
    (new_recipe_ingredients : list ingredient) : form_result :=
  if str_eqb (strip recipe_name) EmptyString then
    FormError "Donnez un nom à la recette."
  else
    let existing_names := map (fun r => lower (recette_nom r)) recettes in
    if str_in (lower (strip recipe_name)) existing_names then
      FormError
        ("La recette « " ++ strip recipe_name ++ " » existe déjà.")%string
    else
      let new_recipe :=
        mk_recette (strip recipe_name) new_recipe_ingredients in
      let res :=
        add_ingredients_to_catalogue lower catalogue
          new_recipe_ingredients false in
      FormSaved (recettes ++ [new_recipe]) (fst res) (snd res).

(** Button "Enregistrer les modifications" of the recipe [choix]. *)
Definition save_edited_recipe (recettes : list recette)
    (catalogue : list cat_rayon) (choix recipe_name : string)
    (new_recipe_ingredients : list ingredient) : form_result :=
  if str_eqb (strip recipe_name) EmptyString then
    FormError "Donnez un nom à la recette."
  else
    let new_name := strip recipe_name in
    let existing_names :=
      map (fun r => lower (recette_nom r))
          (filter (fun r => negb (str_eqb (recette_nom r) choix))
                  recettes) in
    if str_in (lower new_name) existing_names then
      FormError ("La recette « " ++ new_name ++ " » existe déjà.")%string
    else
      let res :=
        add_ingredients_to_catalogue lower catalogue
          new_recipe_ingredients false in
      FormSaved (rename_first choix new_name new_recipe_ingredients recettes)
                (fst res) (snd res).

End RecipeForms.

(** Number of articles of a catalogue, each section counting for one
    more. *)
Definition catalogue_size (catalogue : list cat_rayon) : nat :=
  fold_right (fun s acc => (S (List.length (articles s)) + acc)%nat) 0%nat
             catalogue.

(** ** Totals and shapes of whole lists *)

Definition zsum (l : list Z) : Z := fold_right Z.add 0 l.

(** Sum of all quantities listed in a grouping. *)
Definition total_quantite (g : grouping) : Z :=
  zsum (map (fun p => zsum (map item_quantite (snd p))) g).

(** Sum of the quantities of a list of occurrences, defaults applied. *)
Definition input_quantite (l : list ingredient) : Z :=
  zsum (map get_quantite l).

(** Sum of the quantities held by the working map. *)
Definition entries_quantite (m : list (mkey * merged_entry)) : Z :=
  zsum (map (fun p => m_quantite (snd p)) m).

(** The three properties of a shopping list: each section once, no
    section without items, items of a section in order of lowercased
    name. *)
Definition items_sorted (lower : string -> string) (items : list item)
  : Prop :=
  StronglySorted (key_le (fun x => lower (item_nom x))) items.

Record shopping_list (lower : string -> string) (g : grouping) : Prop := {
  sl_keys : NoDup (Dict.keys g);
  sl_nonempty : forall r items, In (r, items) g -> items <> [];
  sl_sorted : forall r items, In (r, items) g -> items_sorted lower items
}.

(** Total quantity listed by grouping [g] for combination [c]. *)
Definition grouping_total (lower : string -> string) (g : grouping)
    (c : combo) : Z :=
  let r := snd (fst c) in
  zsum
    (map item_quantite
       (filter (fun x => if combo_dec (item_combo lower r x) c then true
                         else false)
               (match Dict.get string_dec r g with
                | Some items => items
                | None => []
                end))).

(** The leading items of [l] whose unit is [u]. *)
Fixpoint leading_run (u : string) (l : list item) : list item :=
  match l with
  | [] => []
  | x :: l' =>
      if str_eqb (item_unite x) u then x :: leading_run u l' else []
  end.

(** Unit of the last stock tuple of a key, with the sum of the
    quantities of the tuples that end the sequence with that unit. *)
Definition last_unit_total (entries : list item) : option stock_entry :=
  match rev entries with
  | [] => None
  | x :: older =>
      Some (mk_stock
              (zsum (map item_quantite
                       (leading_run (item_unite x) (x :: older))))
              (item_unite x))
  end.

(** No stock tuple is filed under the key of an item of the list. *)
Definition stock_misses (lower : string -> string)
    (final_list stock_items : grouping) : Prop :=
  forall r items x,
    In (r, items) final_list -> In x items ->
    stock_entries_for lower (lower (item_nom x), r) stock_items = [].

Definition stock_nonnegative (stock_items : grouping) : Prop :=
  forall r items x,
    In (r, items) stock_items -> In x items -> 0 <= item_quantite x.

Definition all_positive (g : grouping) : Prop :=
  forall r items x, In (r, items) g -> In x items -> 0 < item_quantite x.

(** ** More sample data *)

Definition bakery : string := "Bakery"%string.

Definition sorted_list : grouping :=
  [(bakery, [("Bread"%string, 1, "pièce"%string)]);
   (dairy, [("Butter"%string, 1, "pièce"%string);
            ("Milk"%string, 2, "L"%string)])].

Definition frozen_stock : grouping :=
  [("Frozen"%string, [("Peas"%string, 1, "kg"%string)])].

Definition recipe_items : grouping :=
  [(dairy, [("Milk"%string, 1, "L"%string)])].

Definition free_items : grouping :=
  [(dairy, [("Butter"%string, 1, "pièce"%string);
            ("milk"%string, 2, "L"%string)])].

Definition sample_recettes : list recette :=
  [mk_recette "Crepes"
     [occ "Milk" dairy 1 "L"; mk_ingredient "Eggs" dairy None None];
   mk_recette "Quiche" [occ "Butter" dairy 100 "g"]].

(** * Properties *)

(** ** Dictionaries *)

Section DictFacts.
Context {K V : Type}.
Variable eq_dec : forall a b : K, {a = b} + {a <> b}.

Local Abbreviation get := (Dict.get eq_dec).
Local Abbreviation set := (Dict.set eq_dec).

Lemma get_set_same (k : K) (v : V) (d : list (K * V)) :
  get k (set k v d) = Some v.
Proof.
  induction d as [| [k' v'] d IH]; simpl.
  - destruct (eq_dec k k); congruence.
  - destruct (eq_dec k k') as [E | N]; simpl.
    + destruct (eq_dec k k'); congruence.
    + destruct (eq_dec k k'); congruence.
Qed.

Lemma get_set_other (k k' : K) (v : V) (d : list (K * V)) :
  k <> k' -> get k' (set k v d) = get k' d.
Proof.
  intros N. induction d as [| [k0 v0] d IH]; simpl.
  - destruct (eq_dec k' k); congruence.
  - destruct (eq_dec k k0) as [E | N0]; simpl.
    + destruct (eq_dec k' k0); congruence.
    + destruct (eq_dec k' k0); congruence.
Qed.

Lemma get_None_keys (k : K) (d : list (K * V)) :
  get k d = None <-> ~ In k (Dict.keys d).
Proof.
  induction d as [| [k' v'] d IH]; simpl.
  - tauto.
  - destruct (eq_dec k k') as [E | N].
    + split; [discriminate | intros H; exfalso; apply H; left; congruence].
    + rewrite IH. split; intros H; [intros [E | I]; congruence | tauto].
Qed.

Lemma get_Some_In (k : K) (v : V) (d : list (K * V)) :
  get k d = Some v -> In (k, v) d.
Proof.
  induction d as [| [k' v'] d IH]; simpl; [discriminate |].
  destruct (eq_dec k k') as [E | N]; intros H.
  - left. congruence.
  - right. auto.
Qed.

Lemma In_get_Some (k : K) (v : V) (d : list (K * V)) :
  NoDup (Dict.keys d) -> In (k, v) d -> get k d = Some v.
Proof.
  induction d as [| [k' v'] d IH]; simpl; [tauto |].
  intros ND [E | I]; inversion ND as [| ? ? Hn ND']; subst.
  - inversion E; subst. destruct (eq_dec k k); congruence.
  - destruct (eq_dec k k') as [E | N]; [| auto].
    subst. exfalso. apply Hn. apply (in_map fst) in I. exact I.
Qed.

Lemma set_new (k : K) (v : V) (d : list (K * V)) :
  get k d = None -> set k v d = d ++ [(k, v)].
Proof.
  induction d as [| [k' v'] d IH]; simpl; [reflexivity |].
  destruct (eq_dec k k'); [discriminate |].
  intros H. rewrite IH by exact H. reflexivity.
Qed.

Lemma set_existing (k : K) (v v0 : V) (d : list (K * V)) :
  get k d = Some v0 ->
  exists d1 d2, d = d1 ++ (k, v0) :: d2 /\ set k v d = d1 ++ (k, v) :: d2
                /\ ~ In k (Dict.keys d1).
Proof.
  induction d as [| [k' v'] d IH]; simpl; [discriminate |].
  destruct (eq_dec k k') as [E | N]; intros H.
  - exists [], d. subst. inversion H; subst. simpl. tauto.
  - destruct (IH H) as (d1 & d2 & E1 & E2 & Hn).
    exists ((k', v') :: d1), d2. simpl. rewrite E1 at 1. rewrite E2.
    repeat split; try reflexivity. intros [E | I]; [congruence | tauto].
Qed.

Lemma keys_set_existing (k : K) (v v0 : V) (d : list (K * V)) :
  get k d = Some v0 -> Dict.keys (set k v d) = Dict.keys d.
Proof.
  intros H. destruct (set_existing k v v0 d H) as (d1 & d2 & E1 & E2 & _).
  rewrite E2, E1. unfold Dict.keys. rewrite !map_app. reflexivity.
Qed.

Lemma keys_set_new (k : K) (v : V) (d : list (K * V)) :
  get k d = None -> Dict.keys (set k v d) = Dict.keys d ++ [k].
Proof.
  intros H. rewrite set_new by exact H. unfold Dict.keys.
  rewrite map_app. reflexivity.
Qed.

Lemma NoDup_keys_set (k : K) (v : V) (d : list (K * V)) :
  NoDup (Dict.keys d) -> NoDup (Dict.keys (set k v d)).
Proof.
  intros ND. destruct (get k d) as [v0 |] eqn:G.
  - rewrite (keys_set_existing k v v0 d G). exact ND.
  - rewrite keys_set_new by exact G.
    apply NoDup_rev in ND. rewrite <- (rev_involutive (_ ++ _)).
    apply NoDup_rev. rewrite rev_app_distr. simpl. constructor.
    + rewrite <- in_rev. apply get_None_keys. exact G.
    + exact ND.
Qed.

End DictFacts.

Lemma str_eqb_true (a b : string) : str_eqb a b = true <-> a = b.
Proof.
  unfold str_eqb. destruct (string_dec a b); split; congruence.
Qed.

Lemma str_eqb_false (a b : string) : str_eqb a b = false <-> a <> b.
Proof.
  unfold str_eqb. destruct (string_dec a b); split; congruence.
Qed.

Lemma str_in_true (x : string) (l : list string) :
  str_in x l = true <-> In x l.
Proof.
  unfold str_in. destruct (in_dec string_dec x l); split; congruence.
Qed.

Lemma str_in_false (x : string) (l : list string) :
  str_in x l = false <-> ~ In x l.
Proof.
  unfold str_in. destruct (in_dec string_dec x l); split; congruence.
Qed.

(** ** Stock indexing *)

Section StockFacts.
Variable lower : string -> string.

Lemma get_index_step (k : mkey) (idx : list (mkey * stock_entry))
    (rx : string * item) :
  Dict.get mkey_dec k (index_step lower idx rx)
  = if mkey_dec (stock_key lower rx) k
    then combine_stock (Dict.get mkey_dec k idx) (snd rx)
    else Dict.get mkey_dec k idx.
Proof.
  unfold index_step. fold (stock_key lower rx).
  destruct (mkey_dec (stock_key lower rx) k) as [E | N].
  - subst k. unfold combine_stock.
    destruct (Dict.get mkey_dec (stock_key lower rx) idx) as [st |].
    + destruct (str_eqb (s_unite st) (item_unite (snd rx)));
        apply get_set_same.
    + apply get_set_same.
  - destruct (Dict.get mkey_dec (stock_key lower rx) idx) as [st |].
    + destruct (str_eqb (s_unite st) (item_unite (snd rx)));
        apply get_set_other; exact N.
    + apply get_set_other; exact N.
Qed.

Lemma get_index_fold (k : mkey) (l : list (string * item)) :
  forall idx,
    Dict.get mkey_dec k (fold_left (index_step lower) l idx)
    = fold_left combine_stock
        (map snd
           (filter (fun rx => if mkey_dec (stock_key lower rx) k then true
                              else false) l))
        (Dict.get mkey_dec k idx).
Proof.
  induction l as [| rx l IH]; intros idx; [reflexivity |].
  cbn [fold_left filter]. rewrite IH, get_index_step.
  destruct (mkey_dec (stock_key lower rx) k); reflexivity.
Qed.

(** C8. The stock index is keyed by (name lowercased, section); the entry
    stored under a key is obtained from the stock tuples of that key, in
    order, by [combine_stock]: equal units add up, a different unit
    replaces the recorded quantity and unit (last write wins). *)
Theorem stock_index_policy (stock_items : grouping) (k : mkey) :
  Dict.get mkey_dec k (build_stock_index lower stock_items)
  = fold_left combine_stock (stock_entries_for lower k stock_items) None.
Proof.
  unfold build_stock_index, stock_entries_for.
  rewrite get_index_fold. reflexivity.
Qed.

(** ** Stock subtraction *)

Lemma subtract_fold (idx : list (mkey * stock_entry)) (l : grouping) :
  forall acc,
    NoDup (Dict.keys acc ++ Dict.keys l) ->
    fold_left (subtract_rayon lower idx) l acc
    = acc ++ subtract_sections lower idx l.
Proof.
  induction l as [| p l IH]; intros acc ND; simpl.
  - rewrite app_nil_r. reflexivity.
  - unfold subtract_rayon at 2.
    destruct (flat_map (subtract_item lower idx (fst p)) (snd p))
      as [| x new] eqn:E.
    + simpl. apply IH. simpl in ND. apply NoDup_remove_1 in ND. exact ND.
    + simpl in ND.
      assert (G : Dict.get string_dec (fst p) acc = None).
      { apply get_None_keys. apply NoDup_remove_2 in ND.
        intros I. apply ND. apply in_or_app. left. exact I. }
      rewrite set_new by exact G. rewrite IH.
      * rewrite <- app_assoc. reflexivity.
      * unfold Dict.keys in *. rewrite map_app. simpl.
        rewrite <- app_assoc. exact ND.
Qed.

Lemma subtract_stock_sections (final_list stock_items : grouping) :
  NoDup (Dict.keys final_list) ->
  subtract_stock lower final_list stock_items
  = subtract_sections lower (build_stock_index lower stock_items) final_list.
Proof.
  intros ND. unfold subtract_stock. rewrite subtract_fold; [reflexivity |].
  exact ND.
Qed.

Lemma In_subtract_sections (idx : list (mkey * stock_entry))
    (l : grouping) (r : string) (items : list item) :
  In (r, items) (subtract_sections lower idx l) <->
  exists old, In (r, old) l
              /\ items = flat_map (subtract_item lower idx r) old
              /\ items <> [].
Proof.
  unfold subtract_sections. rewrite in_flat_map. split.
  - intros ([r' old] & I & H). simpl in H.
    destruct (flat_map (subtract_item lower idx r') old) as [| x new] eqn:E;
      [destruct H |].
    destruct H as [H | []]. inversion H; subst.
    exists old. repeat split; [exact I | congruence | discriminate].
  - intros (old & I & E & NE). exists (r, old). split; [exact I |].
    simpl. rewrite <- E. destruct items; [congruence | left; reflexivity].
Qed.

Lemma subtract_item_no_stock (idx : list (mkey * stock_entry))
    (r : string) (x : item) :
  Dict.get mkey_dec (lower (item_nom x), r) idx = None ->
  subtract_item lower idx r x = [x].
Proof.
  intros G. unfold subtract_item. rewrite G. reflexivity.
Qed.

Lemma subtract_item_other_unit (idx : list (mkey * stock_entry))
    (r : string) (x : item) (st : stock_entry) :
  Dict.get mkey_dec (lower (item_nom x), r) idx = Some st ->
  s_unite st <> item_unite x ->
  subtract_item lower idx r x = [x].
Proof.
  intros G N. unfold subtract_item. rewrite G.
  apply str_eqb_false in N. rewrite N. reflexivity.
Qed.

Lemma subtract_item_same_unit (idx : list (mkey * stock_entry))
    (r : string) (x : item) (st : stock_entry) :
  Dict.get mkey_dec (lower (item_nom x), r) idx = Some st ->
  s_unite st = item_unite x ->
  subtract_item lower idx r x
  = if 0 <? item_quantite x - s_quantite st
    then [(item_nom x, item_quantite x - s_quantite st, item_unite x)]
    else [].
Proof.
  intros G E. unfold subtract_item. rewrite G.
  apply str_eqb_true in E. rewrite E. reflexivity.
Qed.

(** C4. Each item of the built list is treated by cases on the stock
    entry indexed under (name lowercased, section): without entry the item
    is kept as it is; with an entry of the same unit the stock quantity is
    subtracted and the item is kept with the remainder when this is
    strictly positive, dropped otherwise; with an entry of another unit
    the item is kept as it is.  The result lists the sections in order
    with the items so obtained, and a section left without items is
    absent. *)
Theorem subtract_stock_cases (final_list stock_items : grouping) :
  NoDup (Dict.keys final_list) ->
  let idx := build_stock_index lower stock_items in
  subtract_stock lower final_list stock_items
  = subtract_sections lower idx final_list
  /\ (forall r items,
        In (r, items) (subtract_stock lower final_list stock_items) <->
        exists old, In (r, old) final_list
                    /\ items = flat_map (subtract_item lower idx r) old
                    /\ items <> [])
  /\ (forall r x,
        let key := (lower (item_nom x), r) in
        (Dict.get mkey_dec key idx = None ->
         subtract_item lower idx r x = [x])
        /\ (forall st,
              Dict.get mkey_dec key idx = Some st ->
              s_unite st = item_unite x ->
              0 < item_quantite x - s_quantite st ->
              subtract_item lower idx r x
              = [(item_nom x, item_quantite x - s_quantite st,
                  item_unite x)])
        /\ (forall st,
              Dict.get mkey_dec key idx = Some st ->
              s_unite st = item_unite x ->
              item_quantite x - s_quantite st <= 0 ->
              subtract_item lower idx r x = [])
        /\ (forall st,
              Dict.get mkey_dec key idx = Some st ->
              s_unite st <> item_unite x ->
              subtract_item lower idx r x = [x])).
Proof.
  intros ND idx. split; [| split].
  - apply subtract_stock_sections. exact ND.
  - intros r items. rewrite subtract_stock_sections by exact ND.
    apply In_subtract_sections.
  - intros r x key. repeat split.
    + apply subtract_item_no_stock.
    + intros st G E P. rewrite (subtract_item_same_unit idx r x st G E).
      apply Z.ltb_lt in P. rewrite P. reflexivity.
    + intros st G E P. rewrite (subtract_item_same_unit idx r x st G E).
      destruct (0 <? item_quantite x - s_quantite st) eqn:B;
        [apply Z.ltb_lt in B; lia | reflexivity].
    + intros st. apply subtract_item_other_unit.
Qed.

Lemma subtract_item_inv (idx : list (mkey * stock_entry))
    (r : string) (x y : item) :
  In y (subtract_item lower idx r x) ->
  y = x \/ (0 < item_quantite y /\ item_nom y = item_nom x
            /\ item_unite y = item_unite x).
Proof.
  unfold subtract_item.
  destruct (Dict.get mkey_dec (lower (item_nom x), r) idx) as [st |].
  - destruct (str_eqb (s_unite st) (item_unite x)).
    + destruct (0 <? item_quantite x - s_quantite st) eqn:B.
      * intros [E | []]. right. subst y. apply Z.ltb_lt in B.
        simpl. auto.
      * intros [].
    + intros [E | []]. left. congruence.
  - intros [E | []]. left. congruence.
Qed.

(** C5. On a built list whose quantities are all strictly positive, every
    quantity of the result is strictly positive, and an item without
    stock entry, or whose stock entry has another unit, is still present,
    unchanged, in its section. *)
Theorem subtract_stock_positive_conservative
    (final_list stock_items : grouping) :
  NoDup (Dict.keys final_list) ->
  (forall r items x,
      In (r, items) final_list -> In x items -> 0 < item_quantite x) ->
  let idx := build_stock_index lower stock_items in
  let result := subtract_stock lower final_list stock_items in
  (forall r items x,
      In (r, items) result -> In x items -> 0 < item_quantite x)
  /\ (forall r items x,
        In (r, items) final_list -> In x items ->
        (Dict.get mkey_dec (lower (item_nom x), r) idx = None
         \/ exists st,
              Dict.get mkey_dec (lower (item_nom x), r) idx = Some st
              /\ s_unite st <> item_unite x) ->
        exists items', In (r, items') result /\ In x items').
Proof.
  intros ND Pos idx result. unfold result.
  rewrite subtract_stock_sections by exact ND. fold idx. split.
  - intros r items x I Ix.
    apply In_subtract_sections in I. destruct I as (old & Io & E & _).
    subst items. apply in_flat_map in Ix. destruct Ix as (y & Iy & Ixy).
    destruct (subtract_item_inv idx r y x Ixy) as [E | [P _]].
    + subst x. apply (Pos r old y Io Iy).
    + exact P.
  - intros r items x I Ix Hst.
    assert (S : subtract_item lower idx r x = [x]).
    { destruct Hst as [G | (st & G & N)].
      - apply subtract_item_no_stock. exact G.
      - apply (subtract_item_other_unit idx r x st G N). }
    assert (Ix' : In x (flat_map (subtract_item lower idx r) items)).
    { apply in_flat_map. exists x. split; [exact Ix |].
      rewrite S. left. reflexivity. }
    exists (flat_map (subtract_item lower idx r) items). split.
    + apply In_subtract_sections. exists items.
      repeat split; [exact I |].
      intros E. rewrite E in Ix'. destruct Ix'.
    + exact Ix'.
Qed.

End StockFacts.

Example merge_carrots :
  merge_ingredients ascii_lower
    [occ "Carrots" "Vegetables" 300 "g"; occ "Carrots" "Vegetables" 150 "g"]
  = [("Vegetables"%string, [("Carrots"%string, 450, "g"%string)])].
Proof. reflexivity. Qed.

(** ** The stable sort *)

Section SortFacts.
Context {A : Type}.
Variable key : A -> string.

Lemma insert_by_perm (x : A) (l : list A) :
  Permutation (insert_by key x l) (x :: l).
Proof.
  induction l as [| y l IH]; simpl.
  - apply Permutation_refl.
  - destruct (String.leb (key x) (key y)).
    + apply Permutation_refl.
    + apply perm_trans with (y :: x :: l).
      * apply perm_skip. exact IH.
      * apply perm_swap.
Qed.

Lemma sort_by_perm (l : list A) : Permutation (sort_by key l) l.
Proof.
  induction l as [| x l IH]; simpl.
  - apply perm_nil.
  - apply perm_trans with (x :: sort_by key l).
    + apply insert_by_perm.
    + apply perm_skip. exact IH.
Qed.

Lemma sort_by_In (x : A) (l : list A) : In x (sort_by key l) <-> In x l.
Proof.
  split; apply Permutation_in.
  - apply sort_by_perm.
  - apply Permutation_sym, sort_by_perm.
Qed.

End SortFacts.

(** ** Catalogue *)

Section CatalogueFacts.
Variable lower : string -> string.

Lemma add_twice (catalogue : list cat_rayon) (n r : string) :
  add_ingredient_to_catalogue lower
    (fst (add_ingredient_to_catalogue lower catalogue n r)) n r
  = (fst (add_ingredient_to_catalogue lower catalogue n r), false).
Proof.
  induction catalogue as [| r0 rest IH]; simpl.
  - assert (E : str_eqb r r = true) by (apply str_eqb_true; reflexivity).
    rewrite E.
    assert (I : str_in (lower n) [lower n] = true)
      by (apply str_in_true; left; reflexivity).
    rewrite I. reflexivity.
  - destruct (str_eqb (cat_nom r0) r) eqn:E.
    + destruct (str_in (lower n) (map lower (articles r0))) eqn:I; simpl.
      * rewrite E, I. reflexivity.
      * rewrite E.
        assert (I' : str_in (lower n)
                       (map lower (sort_by lower (articles r0 ++ [n])))
                     = true).
        { apply str_in_true. apply in_map. apply sort_by_In.
          apply in_or_app. right. left. reflexivity. }
        rewrite I'. reflexivity.
    + simpl. rewrite E, IH. reflexivity.
Qed.

Lemma add_keeps_unique (catalogue : list cat_rayon) (n r : string) :
  Forall (articles_unique lower) catalogue ->
  Forall (articles_unique lower)
    (fst (add_ingredient_to_catalogue lower catalogue n r)).
Proof.
  induction catalogue as [| r0 rest IH]; simpl; intros U.
  - constructor; [| constructor]. unfold articles_unique. simpl.
    constructor; [intros [] | constructor].
  - inversion U as [| ? ? U0 Urest]; subst.
    destruct (str_eqb (cat_nom r0) r).
    + destruct (str_in (lower n) (map lower (articles r0))) eqn:I; simpl.
      * exact U.
      * constructor; [| exact Urest]. unfold articles_unique. simpl.
        apply Permutation_NoDup
          with (l := lower n :: map lower (articles r0)).
        -- apply Permutation_sym.
           apply perm_trans with (map lower (articles r0 ++ [n])).
           ++ apply Permutation_map. apply sort_by_perm.
           ++ rewrite map_app. simpl. apply Permutation_sym.
              apply Permutation_cons_append.
        -- constructor; [apply str_in_false; exact I | exact U0].
    + simpl. constructor; [exact U0 | apply IH; exact Urest].
Qed.

(** C7. Calling the updater a second time with the same arguments leaves
    the catalogue as the first call left it and returns [False]; and when
    no section of the catalogue holds two articles equal up to case, the
    same is true after the call. *)
Theorem add_ingredient_idempotent (catalogue : list cat_rayon)
    (nom_ingredient rayon_nom : string) :
  let once :=
    add_ingredient_to_catalogue lower catalogue nom_ingredient rayon_nom in
  let twice :=
    add_ingredient_to_catalogue lower (fst once) nom_ingredient rayon_nom in
  fst twice = fst once
  /\ snd twice = false
  /\ (Forall (articles_unique lower) catalogue -> Forall (articles_unique lower) (fst once)).
Proof.
  intros once twice. unfold twice, once. rewrite add_twice. simpl.
  split; [reflexivity | split; [reflexivity |]].
  apply add_keeps_unique.
Qed.

End CatalogueFacts.

(** ** Order on strings *)

Lemma str_le_trans (a b c : string) : str_le a b -> str_le b c -> str_le a c.
Proof.
  unfold str_le, String.leb. revert b c.
  induction a as [| x a IH]; intros [| y b] [| z c]; simpl;
    try congruence.
  unfold Ascii.compare.
  destruct (N.compare_spec (N_of_ascii x) (N_of_ascii y)) as [E1 | L1 | G1];
    destruct (N.compare_spec (N_of_ascii y) (N_of_ascii z)) as [E2 | L2 | G2];
    destruct (N.compare_spec (N_of_ascii x) (N_of_ascii z)) as [E3 | L3 | G3];
    try congruence; try lia.
  apply IH.
Qed.

Lemma str_le_lt (a b : string) : str_le a b -> a <> b -> str_lt a b.
Proof.
  unfold str_le, str_lt, String.leb, String.ltb. intros L N.
  destruct (String.compare a b) eqn:C; try congruence.
  exfalso. apply N. apply String.compare_eq_iff. exact C.
Qed.

Section SortedFacts.
Context {A : Type}.
Variable key : A -> string.

Lemma insert_by_sorted (x : A) (l : list A) :
  Sorted (key_le key) l -> Sorted (key_le key) (insert_by key x l).
Proof.
  induction l as [| y l IH]; simpl; intros S.
  - constructor; constructor.
  - destruct (String.leb (key x) (key y)) eqn:L.
    + constructor; [exact S | constructor; exact L].
    + inversion S as [| ? ? S' Hd]; subst.
      constructor; [apply IH; exact S' |].
      destruct l as [| z l]; simpl.
      * constructor. destruct (String.leb_total (key x) (key y)) as [T | T];
          [congruence | exact T].
      * destruct (String.leb (key x) (key z)).
        -- constructor.
           destruct (String.leb_total (key x) (key y)) as [T | T];
             [congruence | exact T].
        -- inversion Hd; subst. constructor. assumption.
Qed.

Lemma sort_by_sorted (l : list A) : Sorted (key_le key) (sort_by key l).
Proof.
  induction l as [| x l IH]; simpl.
  - constructor.
  - apply insert_by_sorted. exact IH.
Qed.

Lemma sort_by_strongly_sorted (l : list A) :
  StronglySorted (key_le key) (sort_by key l).
Proof.
  apply Sorted_StronglySorted.
  - intros x y z. unfold key_le. apply str_le_trans.
  - apply sort_by_sorted.
Qed.

End SortedFacts.

Lemma strictly_sorted (l : list string) :
  NoDup l -> StronglySorted (key_le (fun s => s)) l ->
  StronglySorted str_lt l.
Proof.
  induction l as [| x l IH]; intros ND S.
  - constructor.
  - inversion ND as [| ? ? Hn ND']; subst.
    inversion S as [| ? ? S' F]; subst.
    constructor; [apply IH; assumption |].
    rewrite Forall_forall in *. intros y I.
    apply str_le_lt; [apply F; exact I |].
    intros E. subst y. apply Hn. exact I.
Qed.

(** ** Section ordering *)

Lemma filter_all {A : Type} (f : A -> bool) (l : list A) :
  (forall x, In x l -> f x = true) -> filter f l = l.
Proof.
  induction l as [| x l IH]; simpl; intros H; [reflexivity |].
  rewrite (H x) by (left; reflexivity).
  rewrite IH; [reflexivity |]. intros y I. apply H. right. exact I.
Qed.

Lemma rayon_order_NoDup : NoDup rayon_order.
Proof.
  assert (E : nodup string_dec rayon_order = rayon_order)
    by (vm_compute; reflexivity).
  rewrite <- E. apply NoDup_nodup.
Qed.

Section OrderFacts.
Variable merged : grouping.

Lemma in_merged_keys (r : string) :
  in_merged merged r = true <-> In r (Dict.keys merged).
Proof.
  unfold in_merged, Dict.mem.
  destruct (Dict.get string_dec r merged) eqn:G.
  - split; [intros _ | reflexivity].
    apply get_Some_In in G. apply (in_map fst) in G. exact G.
  - split; [discriminate |]. intros I.
    apply get_None_keys in G. contradiction.
Qed.

Lemma keys_copy_rayon (final : grouping) (r : string) :
  ~ In r (Dict.keys final) ->
  Dict.keys (copy_rayon merged final r)
  = Dict.keys final ++ (if in_merged merged r then [r] else []).
Proof.
  intros N. unfold copy_rayon, in_merged, Dict.mem.
  destruct (Dict.get string_dec r merged).
  - apply keys_set_new. apply get_None_keys. exact N.
  - rewrite app_nil_r. reflexivity.
Qed.

Lemma keys_copy_fold (l : list string) :
  forall final,
    NoDup l ->
    (forall r, In r l -> ~ In r (Dict.keys final)) ->
    Dict.keys (fold_left (copy_rayon merged) l final)
    = Dict.keys final ++ filter (in_merged merged) l.
Proof.
  induction l as [| r l IH]; intros final ND Fresh; simpl.
  - rewrite app_nil_r. reflexivity.
  - inversion ND as [| ? ? Hn ND']; subst.
    rewrite IH.
    + rewrite keys_copy_rayon by (apply Fresh; left; reflexivity).
      destruct (in_merged merged r); rewrite <- app_assoc; reflexivity.
    + exact ND'.
    + intros s I.
      rewrite keys_copy_rayon by (apply Fresh; left; reflexivity).
      intros J. apply in_app_or in J. destruct J as [J | J].
      * apply (Fresh s); [right; exact I | exact J].
      * destruct (in_merged merged r); [| destruct J].
        destruct J as [E | []]. subst s. contradiction.
Qed.

Lemma get_copy_rayon (final : grouping) (r s : string) :
  Dict.get string_dec r (copy_rayon merged final s)
  = if string_dec s r then copied merged r (Dict.get string_dec r final)
    else Dict.get string_dec r final.
Proof.
  unfold copy_rayon, copied. destruct (string_dec s r) as [E | N].
  - subst s. destruct (Dict.get string_dec r merged);
      [apply get_set_same | reflexivity].
  - destruct (Dict.get string_dec s merged);
      [apply get_set_other; exact N | reflexivity].
Qed.

Lemma get_copy_fold (r : string) (l : list string) :
  forall final,
    Dict.get string_dec r (fold_left (copy_rayon merged) l final)
    = if str_in r l then copied merged r (Dict.get string_dec r final)
      else Dict.get string_dec r final.
Proof.
  induction l as [| s l IH]; intros final.
  - reflexivity.
  - cbn [fold_left]. rewrite IH, get_copy_rayon.
    destruct (str_in r l) eqn:I.
    + assert (I' : str_in r (s :: l) = true)
        by (apply str_in_true; right; apply str_in_true; exact I).
      rewrite I'. destruct (string_dec s r); [| reflexivity].
      unfold copied. destruct (Dict.get string_dec r merged); reflexivity.
    + destruct (string_dec s r) as [E | N].
      * assert (I' : str_in r (s :: l) = true)
          by (apply str_in_true; left; exact E).
        rewrite I'. reflexivity.
      * assert (I' : str_in r (s :: l) = false).
        { apply str_in_false. intros [E | J]; [contradiction |].
          apply str_in_false in I. contradiction. }
        rewrite I'. reflexivity.
Qed.

Lemma other_rayons_In (r : string) :
  In r (other_rayons merged)
  <-> In r (Dict.keys merged) /\ ~ In r rayon_order.
Proof.
  unfold other_rayons. rewrite sort_by_In, nodup_In, filter_In.
  rewrite negb_true_iff, str_in_false. tauto.
Qed.

Lemma other_rayons_NoDup : NoDup (other_rayons merged).
Proof.
  unfold other_rayons.
  apply Permutation_NoDup with
    (l := nodup string_dec
            (filter (fun r => negb (str_in r rayon_order))
                    (Dict.keys merged))).
  - apply Permutation_sym. apply sort_by_perm.
  - apply NoDup_nodup.
Qed.

Lemma other_rayons_sorted : StronglySorted str_lt (other_rayons merged).
Proof.
  apply strictly_sorted.
  - apply other_rayons_NoDup.
  - unfold other_rayons. apply sort_by_strongly_sorted.
Qed.

Lemma keys_order_rayons :
  Dict.keys (order_rayons merged)
  = filter (in_merged merged) rayon_order ++ other_rayons merged.
Proof.
  unfold order_rayons. rewrite keys_copy_fold.
  - rewrite keys_copy_fold; [| apply rayon_order_NoDup | intros r _ []].
    change (Dict.keys (@nil (string * list item))) with (@nil string).
    rewrite app_nil_l. f_equal. apply filter_all. intros r I.
    apply in_merged_keys. apply other_rayons_In in I. tauto.
  - apply other_rayons_NoDup.
  - intros r I. apply other_rayons_In in I. destruct I as [_ N].
    rewrite keys_copy_fold; [| apply rayon_order_NoDup | intros s _ []].
    change (Dict.keys (@nil (string * list item))) with (@nil string).
    rewrite app_nil_l. intros J. apply filter_In in J. tauto.
Qed.

Lemma get_order_rayons (r : string) :
  Dict.get string_dec r (order_rayons merged)
  = Dict.get string_dec r merged.
Proof.
  unfold order_rayons. rewrite !get_copy_fold. simpl. unfold copied.
  destruct (Dict.get string_dec r merged) as [items |] eqn:G.
  - destruct (str_in r (other_rayons merged)) eqn:O; [reflexivity |].
    destruct (str_in r rayon_order) eqn:C; [reflexivity |].
    exfalso. apply str_in_false in O. apply O. apply other_rayons_In.
    split; [| apply str_in_false; exact C].
    apply get_Some_In in G. apply (in_map fst) in G. exact G.
  - destruct (str_in r (other_rayons merged)),
      (str_in r rayon_order); reflexivity.
Qed.

End OrderFacts.

(** ** The merge loop *)

Section MergeFacts.
Variable lower : string -> string.

Local Abbreviation mget := (Dict.get mkey_dec).
Local Abbreviation mset := (Dict.set mkey_dec).

Lemma merge_loop_snoc (l : list ingredient) (a : ingredient) :
  merge_loop lower (l ++ [a]) = merge_step lower (merge_loop lower l) a.
Proof.
  unfold merge_loop. rewrite fold_left_app. reflexivity.
Qed.

Lemma merge_step_case (m : list (mkey * merged_entry)) (a : ingredient) :
  merge_case lower m a (merge_step lower m a).
Proof.
  unfold merge_step.
  destruct (mget (primary_key lower a) m) as [e |] eqn:G.
  - destruct (str_eqb (m_unite e) (get_unite a)) eqn:U.
    + apply str_eqb_true in U. apply case_add; assumption.
    + apply str_eqb_false in U.
      destruct (mget (alt_key lower a) m) as [e' |] eqn:G'.
      * apply case_alt_add with (e := e); assumption.
      * apply case_alt_new with (e := e); assumption.
  - apply case_new. exact G.
Qed.

(** A step either creates the bucket [k0] from the occurrence or adds the
    occurrence's quantity to the existing bucket [k0]. *)
Lemma merge_step_set (m : list (mkey * merged_entry)) (a : ingredient) :
  exists k0,
    (k0 = primary_key lower a \/ k0 = alt_key lower a)
    /\ ((mget k0 m = None
         /\ merge_step lower m a = mset k0 (new_entry a) m)
        \/ (exists e0, mget k0 m = Some e0
                       /\ merge_step lower m a
                          = mset k0 (add_quantite e0 (get_quantite a)) m)).
Proof.
  destruct (merge_step_case m a) as [G | e G U | e e' G U G' | e G U G'].
  - exists (primary_key lower a). auto.
  - exists (primary_key lower a). split; [auto |]. right. exists e. auto.
  - exists (alt_key lower a). split; [auto |]. right. exists e'. auto.
  - exists (alt_key lower a). auto.
Qed.

Lemma step_keeps_bucket (m : list (mkey * merged_entry)) (a : ingredient)
    (k : mkey) (e : merged_entry) :
  mget k m = Some e ->
  exists e', mget k (merge_step lower m a) = Some e'
             /\ m_nom e' = m_nom e /\ m_rayon e' = m_rayon e
             /\ m_unite e' = m_unite e.
Proof.
  intros G. destruct (merge_step_set m a) as (k0 & _ & [[G0 E] | (e0 & G0 & E)]);
    rewrite E; destruct (mkey_dec k0 k) as [K | K].
  - subst k0. congruence.
  - exists e. rewrite get_set_other by exact K. auto.
  - subst k0. rewrite get_set_same. exists (add_quantite e0 (get_quantite a)).
    assert (e0 = e) by congruence. subst e0. simpl. auto.
  - exists e. rewrite get_set_other by exact K. auto.
Qed.

Lemma step_creates_bucket (m : list (mkey * merged_entry)) (a : ingredient)
    (k : mkey) (e' : merged_entry) :
  mget k m = None ->
  mget k (merge_step lower m a) = Some e' ->
  e' = new_entry a.
Proof.
  intros G. destruct (merge_step_set m a) as (k0 & _ & [[G0 E] | (e0 & G0 & E)]);
    rewrite E; destruct (mkey_dec k0 k) as [K | K].
  - subst k0. rewrite get_set_same. congruence.
  - rewrite get_set_other by exact K. congruence.
  - subst k0. congruence.
  - rewrite get_set_other by exact K. congruence.
Qed.

Lemma loop_bucket_origin (l : list ingredient) :
  forall k e,
    mget k (merge_loop lower l) = Some e ->
    exists before a after,
      l = before ++ a :: after
      /\ mget k (merge_loop lower before) = None
      /\ mget k (merge_loop lower (before ++ [a])) = Some (new_entry a)
      /\ m_nom e = nom a /\ m_rayon e = rayon a /\ m_unite e = get_unite a.
Proof.
  induction l as [| a l IH] using rev_ind; intros k e G.
  - discriminate.
  - rewrite merge_loop_snoc in G.
    destruct (mget k (merge_loop lower l)) as [e0 |] eqn:G0.
    + destruct (IH k e0 G0)
        as (before & b & after & El & Gb & Gc & En & Er & Eu).
      exists before, b, (after ++ [a]).
      destruct (step_keeps_bucket _ a k e0 G0) as (e' & G' & Hn & Hr & Hu).
      assert (e' = e) by congruence. subst e'.
      rewrite El, <- app_assoc.
      repeat split; try assumption; try congruence.
    + exists l, a, []. rewrite merge_loop_snoc.
      pose proof (step_creates_bucket _ a k e G0 G) as E. subst e.
      repeat split; assumption.
Qed.

Lemma merge_loop_NoDup (l : list ingredient) :
  NoDup (Dict.keys (merge_loop lower l)).
Proof.
  induction l as [| a l IH] using rev_ind.
  - constructor.
  - rewrite merge_loop_snoc.
    destruct (merge_step_set (merge_loop lower l) a)
      as (k0 & _ & [[_ E] | (e0 & _ & E)]);
      rewrite E; apply NoDup_keys_set; exact IH.
Qed.

End MergeFacts.

(** ** The merge loop on occurrences that do not clash *)

Section MergeInvariant.
Variable lower : string -> string.

Local Abbreviation mget := (Dict.get mkey_dec).
Local Abbreviation mset := (Dict.set mkey_dec).

Lemma collision_free_spec (l : list ingredient) :
  collision_free lower l = true <-> clash_free lower l.
Proof.
  unfold collision_free, clash_free. rewrite forallb_forall. split.
  - intros H a b Ia Ib. specialize (H a Ia).
    rewrite forallb_forall in H. apply H. exact Ib.
  - intros H a Ia. apply forallb_forall. intros b Ib. apply H; assumption.
Qed.

Lemma clash_free_prefix (l : list ingredient) (a : ingredient) :
  clash_free lower (l ++ [a]) -> clash_free lower l.
Proof.
  intros H x y Ix Iy. apply H; apply in_or_app; left; assumption.
Qed.

Lemma no_clash_spec (a b : ingredient) :
  no_clash lower a b = true ->
  rayon a = rayon b ->
  lower (nom a) <> alt_name lower b
  /\ (alt_name lower a = alt_name lower b ->
      lower (nom a) = lower (nom b) /\ get_unite a = get_unite b).
Proof.
  unfold no_clash. intros H R.
  destruct (string_dec (rayon a) (rayon b)); [| contradiction].
  apply andb_true_iff in H. destruct H as [H1 H2].
  apply negb_true_iff, str_eqb_false in H1. split; [exact H1 |].
  intros E. apply str_eqb_true in E. rewrite E in H2.
  apply andb_true_iff in H2. destruct H2 as [H2 H3].
  apply str_eqb_true in H2. apply str_eqb_true in H3. auto.
Qed.

Lemma qsum_snoc (l : list ingredient) (a : ingredient) (c : combo) :
  qsum lower (l ++ [a]) c
  = qsum lower l c + (if has_combo lower c a then get_quantite a else 0).
Proof.
  unfold qsum. induction l as [| x l IH]; simpl.
  - destruct (has_combo lower c a); simpl; lia.
  - destruct (has_combo lower c x); simpl; rewrite IH; lia.
Qed.

Lemma qsum_snoc_same (l : list ingredient) (a : ingredient) :
  qsum lower (l ++ [a]) (ing_combo lower a)
  = qsum lower l (ing_combo lower a) + get_quantite a.
Proof.
  rewrite qsum_snoc. unfold has_combo.
  destruct (combo_dec (ing_combo lower a) (ing_combo lower a));
    [reflexivity | congruence].
Qed.

Lemma qsum_snoc_other (l : list ingredient) (a : ingredient) (c : combo) :
  c <> ing_combo lower a -> qsum lower (l ++ [a]) c = qsum lower l c.
Proof.
  intros N. rewrite qsum_snoc. unfold has_combo.
  destruct (combo_dec (ing_combo lower a) c); [congruence | lia].
Qed.

Lemma qsum_absent (l : list ingredient) (c : combo) :
  (forall b, In b l -> ing_combo lower b <> c) -> qsum lower l c = 0.
Proof.
  unfold qsum. induction l as [| x l IH]; simpl; intros H; [reflexivity |].
  unfold has_combo at 1.
  destruct (combo_dec (ing_combo lower x) c) as [E | N].
  - exfalso. apply (H x); [left; reflexivity | exact E].
  - apply IH. intros b I. apply H. right. exact I.
Qed.

Lemma get_set_inv (m : list (mkey * merged_entry)) (k0 k : mkey)
    (v e : merged_entry) :
  mget k (mset k0 v m) = Some e ->
  (k = k0 /\ e = v) \/ (k <> k0 /\ mget k m = Some e).
Proof.
  intros G. destruct (mkey_dec k0 k) as [E | N].
  - subst k. rewrite get_set_same in G. left. split; congruence.
  - rewrite get_set_other in G by exact N. right. split; congruence.
Qed.

Lemma get_set_defined (m : list (mkey * merged_entry)) (k0 k : mkey)
    (v : merged_entry) :
  mget k m <> None -> mget k (mset k0 v m) <> None.
Proof.
  intros G. destruct (mkey_dec k0 k) as [E | N].
  - subst k. rewrite get_set_same. discriminate.
  - rewrite get_set_other by exact N. exact G.
Qed.

Lemma merge_inv_nil : merge_inv lower [] [].
Proof.
  constructor; simpl; try discriminate. intros a [].
Qed.

Lemma merge_inv_add (l : list ingredient) (m : list (mkey * merged_entry))
    (a : ingredient) (k0 : mkey) (e0 : merged_entry) :
  merge_inv lower l m ->
  mget k0 m = Some e0 ->
  entry_combo lower e0 = ing_combo lower a ->
  merge_inv lower (l ++ [a])
    (mset k0 (add_quantite e0 (get_quantite a)) m).
Proof.
  intros I G0 C0.
  assert (Cv : entry_combo lower (add_quantite e0 (get_quantite a))
               = entry_combo lower e0) by reflexivity.
  constructor.
  - intros k e G. destruct (get_set_inv _ _ _ _ _ G) as [[-> ->] | [N G']].
    + apply (inv_shape _ _ _ I k0 e0 G0).
    + apply (inv_shape _ _ _ I k e G').
  - intros k e G. destruct (get_set_inv _ _ _ _ _ G) as [[-> ->] | [N G']].
    + exists a. split; [apply in_or_app; right; left; reflexivity |].
      rewrite Cv. congruence.
    + destruct (inv_origin _ _ _ I k e G') as (b & Ib & Cb).
      exists b. split; [apply in_or_app; left; exact Ib | exact Cb].
  - intros k e G. apply get_set_defined.
    destruct (get_set_inv _ _ _ _ _ G) as [[-> ->] | [N G']].
    + apply (inv_primary _ _ _ I k0 e0 G0).
    + apply (inv_primary _ _ _ I k e G').
  - intros k e G. destruct (get_set_inv _ _ _ _ _ G) as [[-> ->] | [N G']].
    + rewrite Cv, C0, qsum_snoc_same, <- C0. simpl.
      rewrite (inv_sum _ _ _ I k0 e0 G0). reflexivity.
    + rewrite qsum_snoc_other.
      * apply (inv_sum _ _ _ I k e G').
      * intros E. apply N.
        apply (inv_distinct _ _ _ I k e k0 e0 G' G0). congruence.
  - intros k1 e1 k2 e2 G1 G2 C.
    destruct (get_set_inv _ _ _ _ _ G1) as [[-> ->] | [N1 G1']];
      destruct (get_set_inv _ _ _ _ _ G2) as [[-> ->] | [N2 G2']].
    + reflexivity.
    + apply (inv_distinct _ _ _ I k0 e0 k2 e2 G0 G2'). congruence.
    + apply (inv_distinct _ _ _ I k1 e1 k0 e0 G1' G0). congruence.
    + apply (inv_distinct _ _ _ I k1 e1 k2 e2 G1' G2' C).
  - intros b Ib. apply in_app_or in Ib. destruct Ib as [Ib | [<- | []]].
    + destruct (inv_complete _ _ _ I b Ib) as (k & e & G & C).
      destruct (mkey_dec k0 k) as [E | N].
      * subst k. exists k0, (add_quantite e0 (get_quantite a)).
        rewrite get_set_same. split; [reflexivity |]. congruence.
      * exists k, e. rewrite get_set_other by exact N. auto.
    + exists k0, (add_quantite e0 (get_quantite a)).
      rewrite get_set_same. split; [reflexivity | congruence].
Qed.

Lemma merge_inv_new (l : list ingredient) (m : list (mkey * merged_entry))
    (a : ingredient) (k0 : mkey) :
  merge_inv lower l m ->
  mget k0 m = None ->
  (k0 = primary_key lower a
   \/ (k0 = alt_key lower a /\ mget (primary_key lower a) m <> None)) ->
  (forall k e, mget k m = Some e ->
               entry_combo lower e <> ing_combo lower a) ->
  merge_inv lower (l ++ [a]) (mset k0 (new_entry a) m).
Proof.
  intros I G0 K Fresh.
  assert (Cv : entry_combo lower (new_entry a) = ing_combo lower a)
    by reflexivity.
  constructor.
  - intros k e G. destruct (get_set_inv _ _ _ _ _ G) as [[-> ->] | [N G']].
    + destruct K as [-> | [-> _]]; [left | right]; reflexivity.
    + apply (inv_shape _ _ _ I k e G').
  - intros k e G. destruct (get_set_inv _ _ _ _ _ G) as [[-> ->] | [N G']].
    + exists a. split; [apply in_or_app; right; left; reflexivity |].
      reflexivity.
    + destruct (inv_origin _ _ _ I k e G') as (b & Ib & Cb).
      exists b. split; [apply in_or_app; left; exact Ib | exact Cb].
  - intros k e G. destruct (get_set_inv _ _ _ _ _ G) as [[-> ->] | [N G']].
    + change (entry_primary_key lower (new_entry a))
        with (primary_key lower a).
      destruct K as [-> | [-> P]].
      * rewrite get_set_same. discriminate.
      * apply get_set_defined. exact P.
    + apply get_set_defined. apply (inv_primary _ _ _ I k e G').
  - intros k e G. destruct (get_set_inv _ _ _ _ _ G) as [[-> ->] | [N G']].
    + rewrite Cv, qsum_snoc_same, qsum_absent; [reflexivity |].
      intros b Ib Cb.
      destruct (inv_complete _ _ _ I b Ib) as (k & e & G' & C).
      apply (Fresh k e G'). congruence.
    + rewrite qsum_snoc_other.
      * apply (inv_sum _ _ _ I k e G').
      * apply (Fresh k e G').
  - intros k1 e1 k2 e2 G1 G2 C.
    destruct (get_set_inv _ _ _ _ _ G1) as [[-> ->] | [N1 G1']];
      destruct (get_set_inv _ _ _ _ _ G2) as [[-> ->] | [N2 G2']].
    + reflexivity.
    + exfalso. apply (Fresh k2 e2 G2'). congruence.
    + exfalso. apply (Fresh k1 e1 G1'). congruence.
    + apply (inv_distinct _ _ _ I k1 e1 k2 e2 G1' G2' C).
  - intros b Ib. apply in_app_or in Ib. destruct Ib as [Ib | [<- | []]].
    + destruct (inv_complete _ _ _ I b Ib) as (k & e & G & C).
      exists k, e. rewrite get_set_other; [auto |].
      intros E. subst k. congruence.
    + exists k0, (new_entry a). rewrite get_set_same. auto.
Qed.

Lemma combo_inv (e : merged_entry) (a : ingredient) :
  entry_combo lower e = ing_combo lower a ->
  lower (m_nom e) = lower (nom a) /\ m_rayon e = rayon a
  /\ m_unite e = get_unite a.
Proof.
  unfold entry_combo, ing_combo. intros E. inversion E. auto.
Qed.

Lemma entry_keys_of_combo (e : merged_entry) (b : ingredient) :
  entry_combo lower e = ing_combo lower b ->
  entry_primary_key lower e = primary_key lower b
  /\ entry_alt_key lower e = alt_key lower b.
Proof.
  intros C. apply combo_inv in C. destruct C as (Cn & Cr & Cu).
  unfold entry_primary_key, primary_key, entry_alt_key, alt_key, alt_name.
  rewrite Cn, Cr, Cu. split; reflexivity.
Qed.

Lemma primary_key_inj (a b : ingredient) :
  primary_key lower a = primary_key lower b ->
  lower (nom a) = lower (nom b) /\ rayon a = rayon b.
Proof.
  unfold primary_key. intros E.
  split; [exact (f_equal fst E) | exact (f_equal snd E)].
Qed.

Lemma primary_alt_inj (a b : ingredient) :
  primary_key lower a = alt_key lower b ->
  lower (nom a) = alt_name lower b /\ rayon a = rayon b.
Proof.
  unfold primary_key, alt_key. intros E.
  split; [exact (f_equal fst E) | exact (f_equal snd E)].
Qed.

Lemma alt_key_inj (a b : ingredient) :
  alt_key lower a = alt_key lower b ->
  alt_name lower a = alt_name lower b /\ rayon a = rayon b.
Proof.
  unfold alt_key. intros E.
  split; [exact (f_equal fst E) | exact (f_equal snd E)].
Qed.

Lemma merge_inv_step (l : list ingredient)
    (m : list (mkey * merged_entry)) (a : ingredient) :
  clash_free lower (l ++ [a]) ->
  merge_inv lower l m ->
  merge_inv lower (l ++ [a]) (merge_step lower m a).
Proof.
  intros CF I.
  assert (Ia : In a (l ++ [a])) by (apply in_or_app; right; left; reflexivity).
  assert (Il : forall b, In b l -> In b (l ++ [a]))
    by (intros b Ib; apply in_or_app; left; exact Ib).
  destruct (merge_step_case lower m a) as [G | e G U | e e' G U G' | e G U G'].
  - (* new primary bucket *)
    apply merge_inv_new; [exact I | exact G | left; reflexivity |].
    intros k e Ge C. apply entry_keys_of_combo in C. destruct C as [Kp _].
    apply (inv_primary _ _ _ I k e Ge). rewrite Kp. exact G.
  - (* same unit as the primary bucket *)
    apply merge_inv_add with (e0 := e); [exact I | exact G |].
    destruct (inv_origin _ _ _ I _ e G) as (b & Ib & Cb).
    symmetry in Cb.
    destruct (entry_keys_of_combo e b Cb) as [Kp Ka].
    apply combo_inv in Cb. destruct Cb as (Cn & Cr & Cu).
    destruct (inv_shape _ _ _ I _ e G) as [S | S].
    + rewrite Kp in S. apply primary_key_inj in S. destruct S as [Sn Sr].
      unfold entry_combo, ing_combo. rewrite Cn, Cr, U, Sn, Sr.
      reflexivity.
    + exfalso. rewrite Ka in S. apply primary_alt_inj in S.
      destruct S as [Sn Sr].
      destruct (no_clash_spec a b (CF a b Ia (Il b Ib)) Sr) as [N _].
      apply N. exact Sn.
  - (* other unit, existing secondary bucket *)
    apply merge_inv_add with (e0 := e'); [exact I | exact G' |].
    destruct (inv_origin _ _ _ I _ e' G') as (b & Ib & Cb).
    symmetry in Cb.
    destruct (entry_keys_of_combo e' b Cb) as [Kp Ka].
    destruct (inv_shape _ _ _ I _ e' G') as [S | S].
    + exfalso. rewrite Kp in S. symmetry in S. apply primary_alt_inj in S.
      destruct S as [Sn Sr].
      destruct (no_clash_spec b a (CF b a (Il b Ib) Ia) Sr) as [N _].
      apply N. exact Sn.
    + rewrite Ka in S. apply alt_key_inj in S. destruct S as [Sn Sr].
      destruct (no_clash_spec a b (CF a b Ia (Il b Ib)) Sr) as [_ A].
      destruct (A Sn) as [An Au].
      rewrite Cb. unfold ing_combo. rewrite An, Au, Sr. reflexivity.
  - (* other unit, new secondary bucket *)
    apply merge_inv_new; [exact I | exact G' | | ].
    + right. split; [reflexivity |]. rewrite G. discriminate.
    + intros k e3 G3 C.
      destruct (entry_keys_of_combo e3 a C) as [Kp Ka].
      apply combo_inv in C. destruct C as (Cn & Cr & Cu).
      destruct (inv_shape _ _ _ I k e3 G3) as [S | S].
      * rewrite Kp in S. subst k.
        assert (e3 = e) by congruence. subst e3.
        apply U. exact Cu.
      * rewrite Ka in S. subst k. congruence.
Qed.

Lemma merge_inv_loop (l : list ingredient) :
  clash_free lower l -> merge_inv lower l (merge_loop lower l).
Proof.
  induction l as [| a l IH] using rev_ind; intros CF.
  - apply merge_inv_nil.
  - rewrite merge_loop_snoc. apply merge_inv_step; [exact CF |].
    apply IH. apply (clash_free_prefix l a CF).
Qed.

End MergeInvariant.

(** ** Grouping by section and sorting *)

Section GroupFacts.
Variable lower : string -> string.

Local Abbreviation sget := (Dict.get string_dec).
Local Abbreviation mget := (Dict.get mkey_dec).

Lemma get_group_step (result : grouping) (e : merged_entry) (r : string) :
  sget r (group_step result e)
  = if str_eqb (m_rayon e) r
    then Some (match sget r result with Some l => l | None => [] end
               ++ [entry_item e])
    else sget r result.
Proof.
  unfold group_step. destruct (str_eqb (m_rayon e) r) eqn:E.
  - apply str_eqb_true in E. subst r. apply get_set_same.
  - apply str_eqb_false in E. apply get_set_other. exact E.
Qed.

Lemma get_group_fold (r : string) (entries : list merged_entry) :
  forall result,
    sget r (fold_left group_step entries result)
    = match sget r result, rayon_entries r entries with
      | Some l, new => Some (l ++ new)
      | None, [] => None
      | None, x :: new => Some (x :: new)
      end.
Proof.
  unfold rayon_entries.
  induction entries as [| e entries IH]; intros result.
  - simpl. destruct (sget r result); [rewrite app_nil_r |]; reflexivity.
  - cbn [fold_left filter]. rewrite IH, get_group_step.
    destruct (str_eqb (m_rayon e) r); [| reflexivity].
    cbn [map]. destruct (sget r result) as [l0 |].
    + rewrite <- app_assoc. reflexivity.
    + reflexivity.
Qed.

Lemma group_fold_NoDup (entries : list merged_entry) :
  forall result,
    NoDup (Dict.keys result) ->
    NoDup (Dict.keys (fold_left group_step entries result)).
Proof.
  induction entries as [| e entries IH]; intros result ND; simpl.
  - exact ND.
  - apply IH. unfold group_step. apply NoDup_keys_set. exact ND.
Qed.

Lemma keys_sort_sections (g : grouping) :
  Dict.keys (sort_sections lower g) = Dict.keys g.
Proof.
  unfold sort_sections, Dict.keys. rewrite map_map. reflexivity.
Qed.

Lemma get_sort_sections (g : grouping) (r : string) :
  sget r (sort_sections lower g)
  = match sget r g with
    | Some items => Some (sort_by (fun x => lower (item_nom x)) items)
    | None => None
    end.
Proof.
  induction g as [| [r' items] g IH]; simpl; [reflexivity |].
  destruct (string_dec r r'); [reflexivity | exact IH].
Qed.

Lemma merge_keys_NoDup (l : list ingredient) :
  NoDup (Dict.keys (merge_ingredients lower l)).
Proof.
  unfold merge_ingredients. rewrite keys_sort_sections.
  apply group_fold_NoDup. constructor.
Qed.

Lemma merge_get (l : list ingredient) (r : string) :
  sget r (merge_ingredients lower l)
  = match rayon_entries r (Dict.values (merge_loop lower l)) with
    | [] => None
    | x :: new => Some (sort_by (fun x => lower (item_nom x)) (x :: new))
    end.
Proof.
  unfold merge_ingredients, group_by_rayon.
  rewrite get_sort_sections, get_group_fold. simpl.
  destruct (rayon_entries r (Dict.values (merge_loop lower l)));
    reflexivity.
Qed.

Lemma section_items_sorted (l : list ingredient) (r : string) :
  section_items lower l r
  = sort_by (fun x => lower (item_nom x))
      (rayon_entries r (Dict.values (merge_loop lower l))).
Proof.
  unfold section_items. rewrite merge_get.
  destruct (rayon_entries r (Dict.values (merge_loop lower l)));
    reflexivity.
Qed.

Lemma section_items_perm (l : list ingredient) (r : string) :
  Permutation (section_items lower l r)
    (rayon_entries r (Dict.values (merge_loop lower l))).
Proof.
  rewrite section_items_sorted. apply sort_by_perm.
Qed.

Lemma sort_by_nil {A : Type} (key : A -> string) (l : list A) :
  sort_by key l = [] -> l = [].
Proof.
  intros E. pose proof (sort_by_perm key l) as P. rewrite E in P.
  apply Permutation_nil. exact P.
Qed.

Lemma merge_get_section_items (l : list ingredient) (r : string) :
  match sget r (merge_ingredients lower l) with
  | Some items => items = section_items lower l r /\ items <> []
  | None => section_items lower l r = []
  end.
Proof.
  unfold section_items. rewrite merge_get.
  destruct (rayon_entries r (Dict.values (merge_loop lower l)))
    as [| x new]; [reflexivity |].
  split; [reflexivity |]. intros E. apply sort_by_nil in E. discriminate.
Qed.

Lemma In_rayon_entries (l : list ingredient) (r : string) (x : item) :
  In x (rayon_entries r (Dict.values (merge_loop lower l)))
  <-> exists k e, mget k (merge_loop lower l) = Some e
                  /\ m_rayon e = r /\ x = entry_item e.
Proof.
  unfold rayon_entries, Dict.values. rewrite in_map_iff. split.
  - intros (e & E & I). apply filter_In in I. destruct I as [I R].
    apply in_map_iff in I. destruct I as ([k e'] & Ee & I).
    simpl in Ee. subst e'. exists k, e. repeat split.
    + apply In_get_Some; [apply merge_loop_NoDup | exact I].
    + apply str_eqb_true. exact R.
    + congruence.
  - intros (k & e & G & R & E). exists e. split; [congruence |].
    apply filter_In. split.
    + apply in_map_iff. exists (k, e). split; [reflexivity |].
      apply get_Some_In in G. exact G.
    + apply str_eqb_true. exact R.
Qed.

Lemma In_section_items (l : list ingredient) (r : string) (x : item) :
  In x (section_items lower l r)
  <-> exists k e, mget k (merge_loop lower l) = Some e
                  /\ m_rayon e = r /\ x = entry_item e.
Proof.
  rewrite <- In_rayon_entries. split; apply Permutation_in.
  - apply section_items_perm.
  - apply Permutation_sym, section_items_perm.
Qed.

End GroupFacts.

(** ** Content of the merged list when no two occurrences clash *)

Lemma NoDup_map_filter {X Y : Type} (g : X -> Y) (keep : X -> bool)
    (xs : list X) (ND : NoDup (map g xs)) :
  NoDup (map g (filter keep xs)).
Proof.
  induction xs as [| x xs IH]; simpl in *; [constructor |].
  inversion ND as [| ? ? Hn ND']; subst.
  destruct (keep x); simpl; [| apply IH; exact ND'].
  constructor; [| apply IH; exact ND'].
  intros I. apply Hn. apply in_map_iff in I. destruct I as (y & E & I).
  apply filter_In in I. apply in_map_iff. exists y. tauto.
Qed.

Lemma NoDup_map_values {K V B : Type} (f : V -> B) (m : list (K * V)) :
  NoDup (Dict.keys m) ->
  (forall k1 e1 k2 e2,
      In (k1, e1) m -> In (k2, e2) m -> f e1 = f e2 -> k1 = k2) ->
  NoDup (map f (Dict.values m)).
Proof.
  induction m as [| [k e] m IH]; simpl; intros ND Inj; [constructor |].
  inversion ND as [| ? ? Hn ND']; subst. constructor.
  - intros I. apply in_map_iff in I. destruct I as (e' & E & I).
    unfold Dict.values in I. apply in_map_iff in I.
    destruct I as ([k' e''] & E' & I). simpl in E'. subst e''.
    assert (Ek : k' = k).
    { apply (Inj k' e' k e); [right; exact I | left; reflexivity | exact E]. }
    subst k'. apply Hn. apply (in_map fst) in I. exact I.
  - apply IH; [exact ND' |]. intros k1 e1 k2 e2 I1 I2.
    apply Inj; right; assumption.
Qed.

Section MergeContent.
Variable lower : string -> string.

Local Abbreviation mget := (Dict.get mkey_dec).

Lemma qsum_perm (l l' : list ingredient) (c : combo) :
  Permutation l l' -> qsum lower l c = qsum lower l' c.
Proof.
  unfold qsum. induction 1 as [| x l l' P IH | x y l | l l' l'' P1 IH1 P2 IH2];
    simpl.
  - reflexivity.
  - destruct (has_combo lower c x); simpl; rewrite IH; reflexivity.
  - destruct (has_combo lower c x), (has_combo lower c y); simpl; lia.
  - congruence.
Qed.

Lemma clash_free_perm (l l' : list ingredient) :
  Permutation l l' -> clash_free lower l -> clash_free lower l'.
Proof.
  intros P CF a b Ia Ib.
  apply CF; apply (Permutation_in _ (Permutation_sym P)); assumption.
Qed.

Lemma entry_combos_NoDup (l : list ingredient) :
  clash_free lower l ->
  NoDup (map (entry_combo lower) (Dict.values (merge_loop lower l))).
Proof.
  intros CF. pose proof (merge_inv_loop lower l CF) as I.
  apply NoDup_map_values; [apply merge_loop_NoDup |].
  intros k1 e1 k2 e2 I1 I2 C.
  apply (inv_distinct _ _ _ I k1 e1 k2 e2);
    [apply In_get_Some; [apply merge_loop_NoDup | exact I1]
    | apply In_get_Some; [apply merge_loop_NoDup | exact I2]
    | exact C].
Qed.

Lemma item_combos_NoDup (l : list ingredient) (r : string) :
  clash_free lower l ->
  NoDup (map (item_combo lower r) (section_items lower l r)).
Proof.
  intros CF.
  apply Permutation_NoDup
    with (l := map (item_combo lower r)
                 (rayon_entries r (Dict.values (merge_loop lower l)))).
  - apply Permutation_map, Permutation_sym, section_items_perm.
  - unfold rayon_entries. rewrite map_map.
    rewrite map_ext_in
      with (g := entry_combo lower).
    + apply NoDup_map_filter. apply entry_combos_NoDup. exact CF.
    + intros e Ie. apply filter_In in Ie. destruct Ie as [_ R].
      apply str_eqb_true in R. unfold item_combo, entry_combo, entry_item.
      unfold item_nom, item_unite. cbn [fst snd]. rewrite R. reflexivity.
Qed.

Lemma In_section_items_origin (l : list ingredient) (r : string)
    (x : item) :
  clash_free lower l ->
  In x (section_items lower l r) ->
  exists a, In a l /\ rayon a = r /\ norm_item lower x = expected_item lower l a.
Proof.
  intros CF Ix. pose proof (merge_inv_loop lower l CF) as I.
  apply In_section_items in Ix. destruct Ix as (k & e & G & R & E).
  destruct (inv_origin _ _ _ I k e G) as (a & Ia & Ca).
  pose proof (inv_sum _ _ _ I k e G) as S.
  exists a. split; [exact Ia |].
  assert (C := Ca). symmetry in C. apply combo_inv in C.
  destruct C as (Cn & Cr & Cu).
  split; [congruence |].
  subst x. unfold norm_item, expected_item, entry_item.
  unfold item_nom, item_quantite, item_unite. cbn [fst snd].
  rewrite S, Ca, Cn, Cu. reflexivity.
Qed.

Lemma In_section_items_complete (l : list ingredient) (a : ingredient) :
  clash_free lower l ->
  In a l ->
  exists x, In x (section_items lower l (rayon a))
            /\ norm_item lower x = expected_item lower l a.
Proof.
  intros CF Ia. pose proof (merge_inv_loop lower l CF) as I.
  destruct (inv_complete _ _ _ I a Ia) as (k & e & G & C).
  pose proof (inv_sum _ _ _ I k e G) as S.
  assert (C' := C). apply combo_inv in C'. destruct C' as (Cn & Cr & Cu).
  exists (entry_item e). split.
  - apply In_section_items. exists k, e. auto.
  - unfold norm_item, expected_item, entry_item.
    unfold item_nom, item_quantite, item_unite. cbn [fst snd].
    rewrite S, C, Cn, Cu. reflexivity.
Qed.

Lemma In_norm_section (l : list ingredient) (r : string) (y : item) :
  clash_free lower l ->
  (In y (map (norm_item lower) (section_items lower l r))
   <-> exists a, In a l /\ rayon a = r /\ y = expected_item lower l a).
Proof.
  intros CF. rewrite in_map_iff. split.
  - intros (x & E & Ix).
    destruct (In_section_items_origin l r x CF Ix) as (a & Ia & R & Ea).
    exists a. repeat split; congruence.
  - intros (a & Ia & R & E).
    destruct (In_section_items_complete l a CF Ia) as (x & Ix & Ex).
    exists x. split; congruence.
Qed.

Lemma norm_section_NoDup (l : list ingredient) (r : string) :
  clash_free lower l ->
  NoDup (map (norm_item lower) (section_items lower l r)).
Proof.
  intros CF.
  apply NoDup_map_inv
    with (f := fun y : item => (item_nom y, r, item_unite y)).
  rewrite map_map. apply (item_combos_NoDup l r CF).
Qed.

Lemma norm_section_perm (l l' : list ingredient) (r : string) :
  Permutation l l' ->
  clash_free lower l ->
  Permutation (map (norm_item lower) (section_items lower l r))
              (map (norm_item lower) (section_items lower l' r)).
Proof.
  intros P CF. pose proof (clash_free_perm l l' P CF) as CF'.
  apply NoDup_Permutation; try (apply norm_section_NoDup; assumption).
  intros y. rewrite (In_norm_section l r y CF), (In_norm_section l' r y CF').
  split; intros (a & Ia & R & E); exists a; repeat split; try exact R.
  - apply (Permutation_in _ P). exact Ia.
  - rewrite E. unfold expected_item. rewrite (qsum_perm l l' _ P).
    reflexivity.
  - apply (Permutation_in _ (Permutation_sym P)). exact Ia.
  - rewrite E. unfold expected_item. rewrite (qsum_perm l l' _ P).
    reflexivity.
Qed.

End MergeContent.

(** ** Statements on the Ingredient Merger *)

Lemma filter_none {A : Type} (p : A -> bool) (l : list A) :
  (forall x, In x l -> p x = false) -> filter p l = [].
Proof.
  induction l as [| x l IH]; simpl; intros H; [reflexivity |].
  rewrite (H x) by (left; reflexivity). apply IH.
  intros y I. apply H. right. exact I.
Qed.

Lemma filter_unique {A : Type} (f : A -> combo) (l : list A) (x : A) :
  NoDup (map f l) -> In x l ->
  filter (fun y => if combo_dec (f y) (f x) then true else false) l = [x].
Proof.
  induction l as [| y l IH]; simpl; intros ND I; [destruct I |].
  inversion ND as [| ? ? Hn ND']; subst. destruct I as [E | I].
  - subst y. destruct (combo_dec (f x) (f x)); [| congruence].
    f_equal. apply filter_none. intros z Iz.
    destruct (combo_dec (f z) (f x)) as [E | _]; [| reflexivity].
    exfalso. apply Hn. rewrite <- E. apply in_map. exact Iz.
  - destruct (combo_dec (f y) (f x)) as [E | _].
    + exfalso. apply Hn. rewrite E. apply in_map. exact I.
    + apply IH; assumption.
Qed.

Section MergeClaims.
Variable lower : string -> string.

Local Abbreviation sget := (Dict.get string_dec).
Local Abbreviation mget := (Dict.get mkey_dec).

Lemma norm_expected_inv (l : list ingredient) (x : item) (a : ingredient) :
  norm_item lower x = expected_item lower l a ->
  lower (item_nom x) = lower (nom a)
  /\ item_quantite x = qsum lower l (ing_combo lower a)
  /\ item_unite x = get_unite a.
Proof.
  unfold norm_item, expected_item. intros E.
  repeat split.
  - exact (f_equal (fun y : item => fst (fst y)) E).
  - exact (f_equal (fun y : item => snd (fst y)) E).
  - exact (f_equal (fun y : item => snd y) E).
Qed.

(** Sum preservation holds whenever no two occurrences clash. *)
Lemma merge_sum_preserved (l : list ingredient) (c : combo) :
  collision_free lower l = true ->
  output_total lower l c = qsum lower l c.
Proof.
  intros CF. apply collision_free_spec in CF.
  destruct c as [[n r] u]. unfold output_total. cbn [fst snd].
  destruct (existsb (has_combo lower (n, r, u)) l) eqn:Ex.
  - apply existsb_exists in Ex. destruct Ex as (a & Ia & Ha).
    unfold has_combo in Ha.
    destruct (combo_dec (ing_combo lower a) (n, r, u)) as [Ca |];
      [| discriminate].
    destruct (In_section_items_complete lower l a CF Ia) as (x & Ix & Ex).
    apply norm_expected_inv in Ex. destruct Ex as (En & Eq & Eu).
    assert (R : rayon a = r)
      by exact (f_equal (fun y : combo => snd (fst y)) Ca).
    rewrite R in Ix.
    assert (Cx : item_combo lower r x = (n, r, u)).
    { rewrite <- Ca. unfold item_combo, ing_combo. rewrite En, Eu, R.
      reflexivity. }
    rewrite <- Cx.
    rewrite (filter_unique (item_combo lower r) _ x
               (item_combos_NoDup lower l r CF) Ix).
    simpl. rewrite Eq, Cx, Ca. lia.
  - rewrite filter_none.
    + simpl. symmetry. apply qsum_absent. intros b Ib Cb.
      assert (T : existsb (has_combo lower (n, r, u)) l = true).
      { apply existsb_exists. exists b. split; [exact Ib |].
        unfold has_combo.
        destruct (combo_dec (ing_combo lower b) (n, r, u)); congruence. }
      congruence.
    + intros x Ix.
      destruct (combo_dec (item_combo lower r x) (n, r, u)) as [Cx | _];
        [| reflexivity].
      exfalso.
      destruct (In_section_items_origin lower l r x CF Ix)
        as (a & Ia & R & Ea).
      apply norm_expected_inv in Ea. destruct Ea as (En & _ & Eu).
      assert (T : existsb (has_combo lower (n, r, u)) l = true).
      { apply existsb_exists. exists a. split; [exact Ia |].
        unfold has_combo.
        destruct (combo_dec (ing_combo lower a) (n, r, u)) as [| N];
          [reflexivity |].
        exfalso. apply N. rewrite <- Cx.
        unfold item_combo, ing_combo. rewrite En, Eu, R. reflexivity. }
      congruence.
Qed.

(** C3 (amended). For two occurrence lists that are permutations of each
    other and in which no two occurrences clash, the merger lists the same
    sections and, under each section, the same multiset of entries once
    names are compared up to case (lowercased name, quantity, unit). *)
Theorem merge_permutation_up_to_case (l l' : list ingredient) :
  Permutation l l' ->
  collision_free lower l = true ->
  forall r,
    match sget r (merge_ingredients lower l),
          sget r (merge_ingredients lower l') with
    | Some items, Some items' =>
        Permutation (map (norm_item lower) items)
                    (map (norm_item lower) items')
    | None, None => True
    | _, _ => False
    end.
Proof.
  intros P CF r. apply collision_free_spec in CF.
  pose proof (norm_section_perm lower l l' r P CF) as NP.
  pose proof (merge_get_section_items lower l r) as H.
  pose proof (merge_get_section_items lower l' r) as H'.
  destruct (sget r (merge_ingredients lower l)) as [items |];
    destruct (sget r (merge_ingredients lower l')) as [items' |].
  - destruct H as [-> _]. destruct H' as [-> _]. exact NP.
  - destruct H as [E N]. rewrite H' in NP. simpl in NP.
    apply Permutation_sym, Permutation_nil in NP.
    apply map_eq_nil in NP. congruence.
  - destruct H' as [E N]. rewrite H in NP. simpl in NP.
    apply Permutation_nil in NP. apply map_eq_nil in NP. congruence.
  - exact I.
Qed.

(** C9 (amended). Any number of distinct units coexist for one name in one
    section: when no two occurrences clash, the output entries of section
    [r] named [n] up to case carry exactly the distinct units of the
    occurrences of that name and section, one entry per unit, and each
    entry holds the sum of the quantities of its unit. *)
Theorem every_unit_has_its_bucket (l : list ingredient) (n r : string) :
  collision_free lower l = true ->
  Permutation (map item_unite (name_buckets lower l n r))
              (units_of lower l n r)
  /\ List.length (name_buckets lower l n r)
     = List.length (units_of lower l n r)
  /\ (forall x, In x (name_buckets lower l n r) ->
                item_quantite x = qsum lower l (n, r, item_unite x)).
Proof.
  intros CF. apply collision_free_spec in CF.
  assert (P : Permutation (map item_unite (name_buckets lower l n r))
                          (units_of lower l n r)).
  { apply NoDup_Permutation.
    - apply NoDup_map_inv with (f := fun u : string => (n, r, u)).
      rewrite map_map. unfold name_buckets.
      rewrite map_ext_in with (g := item_combo lower r).
      + apply NoDup_map_filter. apply (item_combos_NoDup lower l r CF).
      + intros x Ix. apply filter_In in Ix. destruct Ix as [_ En].
        apply str_eqb_true in En. unfold item_combo. rewrite En.
        reflexivity.
    - apply NoDup_nodup.
    - intros u. unfold units_of, name_buckets.
      rewrite nodup_In, !in_map_iff. split.
      + intros (x & Eu & Ix). apply filter_In in Ix.
        destruct Ix as [Ix En]. apply str_eqb_true in En.
        destruct (In_section_items_origin lower l r x CF Ix)
          as (a & Ia & R & Ea).
        apply norm_expected_inv in Ea. destruct Ea as (Hn & _ & Hu).
        exists a. split; [congruence |]. apply filter_In.
        split; [exact Ia |]. apply andb_true_iff.
        split; apply str_eqb_true; congruence.
      + intros (a & Eu & Ia). apply filter_In in Ia.
        destruct Ia as [Ia H]. apply andb_true_iff in H.
        destruct H as [Hn Hr].
        apply str_eqb_true in Hn. apply str_eqb_true in Hr.
        destruct (In_section_items_complete lower l a CF Ia)
          as (x & Ix & Ex).
        apply norm_expected_inv in Ex. destruct Ex as (En & _ & Ex).
        exists x. split; [congruence |]. apply filter_In.
        split; [rewrite <- Hr; exact Ix |].
        apply str_eqb_true. congruence. }
  split; [exact P | split].
  - apply Permutation_length in P. rewrite length_map in P. exact P.
  - intros x Ix. unfold name_buckets in Ix. apply filter_In in Ix.
    destruct Ix as [Ix En]. apply str_eqb_true in En.
    destruct (In_section_items_origin lower l r x CF Ix)
      as (a & Ia & R & Ea).
    apply norm_expected_inv in Ea. destruct Ea as (Hn & Hq & Hu).
    rewrite Hq. unfold ing_combo. rewrite <- Hn, En, R, Hu. reflexivity.
Qed.

(** C10. An existing bucket keeps its name, section and unit through every
    later step of the loop; and every entry of the output carries, letter
    for letter, the name of the occurrence whose step created its bucket
    (the bucket being absent before that step), together with that
    occurrence's section and unit.  Hence the casing shown depends on the
    order of the input. *)
Theorem display_name_from_creating_occurrence :
  (forall m a k e,
      mget k m = Some e ->
      exists e', mget k (merge_step lower m a) = Some e'
                 /\ m_nom e' = m_nom e /\ m_rayon e' = m_rayon e
                 /\ m_unite e' = m_unite e)
  /\ (forall l r items x,
        In (r, items) (merge_ingredients lower l) -> In x items ->
        exists k before a after,
          l = before ++ a :: after
          /\ mget k (merge_loop lower before) = None
          /\ mget k (merge_loop lower (before ++ [a])) = Some (new_entry a)
          /\ item_nom x = nom a /\ r = rayon a
          /\ item_unite x = get_unite a)
  /\ merge_ingredients ascii_lower
       [occ "Milk" "Dairy" 1 "L"; occ "milk" "Dairy" 2 "L"]
     = [("Dairy"%string, [("Milk"%string, 3, "L"%string)])]
  /\ merge_ingredients ascii_lower
       [occ "milk" "Dairy" 2 "L"; occ "Milk" "Dairy" 1 "L"]
     = [("Dairy"%string, [("milk"%string, 3, "L"%string)])].
Proof.
  split; [| split; [| split; vm_compute; reflexivity]].
  - intros m a k e G. apply step_keeps_bucket. exact G.
  - intros l r items x Ir Ix.
    apply (In_get_Some string_dec) in Ir; [| apply merge_keys_NoDup].
    pose proof (merge_get_section_items lower l r) as H.
    rewrite Ir in H. destruct H as [E _]. subst items.
    apply In_section_items in Ix. destruct Ix as (k & e & G & R & E).
    destruct (loop_bucket_origin lower l k e G)
      as (before & a & after & El & Gb & Gc & Hn & Hr & Hu).
    exists k, before, a, after. subst x.
    unfold item_nom, item_unite, entry_item. cbn [fst snd].
    repeat split; try assumption. congruence.
Qed.

End MergeClaims.

(** Occurrences of a single name in a single section never clash, whatever
    their units. *)
Lemma append_neq_self (n s : string) :
  s <> EmptyString -> n <> (n ++ s)%string.
Proof.
  intros N. induction n as [| c n IH]; simpl.
  - congruence.
  - intros E. apply IH. injection E as E. exact E.
Qed.

Lemma append_inj_l (n s1 s2 : string) :
  (n ++ s1)%string = (n ++ s2)%string -> s1 = s2.
Proof.
  induction n as [| c n IH]; simpl; intros E.
  - exact E.
  - apply IH. injection E as E. exact E.
Qed.

Lemma same_name_collision_free (lower : string -> string)
    (l : list ingredient) (n r : string) :
  (forall a, In a l -> lower (nom a) = n /\ rayon a = r) ->
  collision_free lower l = true.
Proof.
  intros H. apply collision_free_spec. intros a b Ia Ib.
  destruct (H a Ia) as [Na Ra]. destruct (H b Ib) as [Nb Rb].
  unfold no_clash. destruct (string_dec (rayon a) (rayon b)); [| reflexivity].
  apply andb_true_iff. split.
  - apply negb_true_iff, str_eqb_false. unfold alt_name.
    rewrite Na, Nb. apply append_neq_self. simpl. discriminate.
  - destruct (str_eqb (alt_name lower a) (alt_name lower b)) eqn:E;
      [| reflexivity].
    apply str_eqb_true in E. unfold alt_name in E. rewrite Na, Nb in E.
    apply append_inj_l in E. simpl in E. injection E as E.
    apply andb_true_iff. split; apply str_eqb_true; congruence.
Qed.

(** ** Statements on the List Builder *)

(** C6. The sections of the built list are, first, the sections of the
    canonical sequence [rayon_order] (18 names) that occur in the merged
    list, in the order of that sequence, then all other sections in
    strictly increasing (alphabetical) order; each section keeps the items
    the merger gave it.  With items in sections Cheese, Bakery and an
    unknown section the order is Bakery, Cheese, unknown section; likewise
    with the canonical names FROMAGES and BOULANGERIE. *)
Theorem build_final_list_section_order (lower : string -> string)
    (recipe_items_by_rayon free_items_by_rayon : grouping) :
  let merged :=
    merge_ingredients lower
      (flatten_grouping recipe_items_by_rayon
       ++ flatten_grouping free_items_by_rayon) in
  let final :=
    build_final_list lower recipe_items_by_rayon free_items_by_rayon in
  Dict.keys final
  = filter (in_merged merged) rayon_order ++ other_rayons merged
  /\ (forall r, In r (other_rayons merged)
                <-> In r (Dict.keys merged) /\ ~ In r rayon_order)
  /\ StronglySorted str_lt (other_rayons merged)
  /\ (forall r, Dict.get string_dec r final = Dict.get string_dec r merged)
  /\ List.length rayon_order = 18%nat
  /\ Dict.keys
       (build_final_list ascii_lower
          [("Cheese"%string, [("Brie"%string, 1, "pièce"%string)]);
           ("Bakery"%string, [("Baguette"%string, 2, "pièce"%string)])]
          [("UnknownSection"%string, [("Soap"%string, 1, "pièce"%string)])])
     = ["Bakery"; "Cheese"; "UnknownSection"]%string
  /\ Dict.keys
       (build_final_list ascii_lower
          [("FROMAGES"%string, [("Brie"%string, 1, "pièce"%string)]);
           ("BOULANGERIE"%string, [("Baguette"%string, 2, "pièce"%string)])]
          [("UnknownSection"%string, [("Soap"%string, 1, "pièce"%string)])])
     = ["BOULANGERIE"; "FROMAGES"; "UnknownSection"]%string.
Proof.
  intros merged final. unfold final, build_final_list. fold merged.
  split; [apply keys_order_rayons |].
  split; [apply other_rayons_In |].
  split; [apply other_rayons_sorted |].
  split; [apply get_order_rayons |].
  split; [reflexivity |].
  split; vm_compute; reflexivity.
Qed.

(** ** Evaluations *)

(** C1 (the code departs from the claim). On [clash_input] the 500 ml of
    milk are added to the bucket of the ingredient named milk_ml, whose
    unit is L: the output holds nothing for (milk, Dairy, ml) and 501 for
    (milk_ml, Dairy, L), against input sums of 500 and 1. *)
Theorem merge_misfiles_on_key_clash :
  merge_ingredients ascii_lower clash_input
  = [(dairy, [("Milk"%string, 1, "L"%string);
              ("milk_ml"%string, 501, "L"%string)])]
  /\ qsum ascii_lower clash_input ("milk", dairy, "ml")%string = 500
  /\ output_total ascii_lower clash_input ("milk", dairy, "ml")%string = 0
  /\ qsum ascii_lower clash_input ("milk_ml", dairy, "L")%string = 1
  /\ output_total ascii_lower clash_input ("milk_ml", dairy, "L")%string
     = 501.
Proof.
  repeat split; vm_compute; reflexivity.
Qed.

(** C2 (the code departs from the claim). On [clash_input] the name milk
    occurs in section Dairy with the two units L and ml, and the output
    holds a single entry for it. *)
Theorem merge_loses_bucket_on_key_clash :
  units_of ascii_lower clash_input "milk" dairy = ["L"; "ml"]%string
  /\ name_buckets ascii_lower clash_input "milk" dairy
     = [("Milk"%string, 1, "L"%string)]
  /\ collision_free ascii_lower clash_input = false.
Proof.
  repeat split; vm_compute; reflexivity.
Qed.

(** With a clash the output also depends on the order of the input, even
    up to case. *)
Example merge_clash_order_dependent :
  merge_ingredients ascii_lower (rev clash_input)
  = [(dairy, [("Milk"%string, 500, "ml"%string);
              ("Milk"%string, 1, "L"%string);
              ("milk_ml"%string, 1, "L"%string)])].
Proof. vm_compute. reflexivity. Qed.

(** C3 (as stated, refuted). Two permutations of one list give entries
    whose names differ in case, hence different multisets of
    (name, quantity, unit). *)
Lemma merge_order_changes_name :
  Permutation milk_twice (rev milk_twice)
  /\ merge_ingredients ascii_lower milk_twice
     = [(dairy, [("Milk"%string, 2, "L"%string)])]
  /\ merge_ingredients ascii_lower (rev milk_twice)
     = [(dairy, [("milk"%string, 2, "L"%string)])]
  /\ ~ Permutation [("Milk"%string, 2, "L"%string)]
                   [("milk"%string, 2, "L"%string)].
Proof.
  split; [apply Permutation_rev |].
  split; [vm_compute; reflexivity |].
  split; [vm_compute; reflexivity |].
  intros P. apply Permutation_length_1 in P. discriminate P.
Qed.

(** C9 (as stated, refuted). Three units of one name in one section give
    three buckets, each with the sum of its unit; the third unit neither
    overwrites the second bucket nor is filed in it. *)
Lemma three_units_three_buckets :
  merge_ingredients ascii_lower three_units
  = [(dairy, [("Milk"%string, 1, "L"%string);
              ("Milk"%string, 750, "ml"%string);
              ("Milk"%string, 75, "cl"%string)])]
  /\ qsum ascii_lower three_units ("milk", dairy, "ml")%string = 750
  /\ qsum ascii_lower three_units ("milk", dairy, "cl")%string = 75.
Proof.
  repeat split; vm_compute; reflexivity.
Qed.

(** ** Instances *)

Lemma merge_permutation_up_to_case_witness :
  Permutation milk_twice (rev milk_twice)
  /\ collision_free ascii_lower milk_twice = true
  /\ forall r,
       match Dict.get string_dec r (merge_ingredients ascii_lower milk_twice),
             Dict.get string_dec r
               (merge_ingredients ascii_lower (rev milk_twice)) with
       | Some items, Some items' =>
           Permutation (map (norm_item ascii_lower) items)
                       (map (norm_item ascii_lower) items')
       | None, None => True
       | _, _ => False
       end.
Proof.
  split; [apply Permutation_rev |].
  split; [vm_compute; reflexivity |].
  apply (merge_permutation_up_to_case ascii_lower milk_twice
           (rev milk_twice)).
  - apply Permutation_rev.
  - vm_compute. reflexivity.
Defined.

Lemma every_unit_has_its_bucket_witness :
  collision_free ascii_lower three_units = true
  /\ Permutation
       (map item_unite (name_buckets ascii_lower three_units "milk" dairy))
       (units_of ascii_lower three_units "milk" dairy)
  /\ List.length (name_buckets ascii_lower three_units "milk" dairy)
     = List.length (units_of ascii_lower three_units "milk" dairy)
  /\ (forall x,
        In x (name_buckets ascii_lower three_units "milk" dairy) ->
        item_quantite x
        = qsum ascii_lower three_units ("milk"%string, dairy, item_unite x)).
Proof.
  split; [vm_compute; reflexivity |].
  apply (every_unit_has_its_bucket ascii_lower three_units "milk" dairy).
  vm_compute. reflexivity.
Defined.

Lemma milk_list_keys_NoDup : NoDup (Dict.keys milk_list).
Proof.
  apply NoDup_cons; [| apply NoDup_cons; [| apply NoDup_nil]].
  - intros [E | []]. discriminate E.
  - intros [].
Defined.

Lemma milk_list_positive :
  forall r items x,
    In (r, items) milk_list -> In x items -> 0 < item_quantite x.
Proof.
  intros r items x Ir Ix.
  destruct Ir as [E | [E | []]]; injection E as <- <-;
    repeat (destruct Ix as [<- | Ix]); try destruct Ix;
    reflexivity.
Defined.

Lemma subtract_stock_cases_witness :
  NoDup (Dict.keys milk_list)
  /\ subtract_stock ascii_lower milk_list milk_stock
     = subtract_sections ascii_lower
         (build_stock_index ascii_lower milk_stock) milk_list.
Proof.
  split; [exact milk_list_keys_NoDup |].
  exact (proj1 (subtract_stock_cases ascii_lower milk_list milk_stock
                  milk_list_keys_NoDup)).
Defined.

Lemma subtract_stock_positive_conservative_witness :
  NoDup (Dict.keys milk_list)
  /\ (forall r items x,
        In (r, items) milk_list -> In x items -> 0 < item_quantite x)
  /\ (forall r items x,
        In (r, items) (subtract_stock ascii_lower milk_list milk_stock) ->
        In x items -> 0 < item_quantite x).
Proof.
  split; [exact milk_list_keys_NoDup |].
  split; [exact milk_list_positive |].
  exact (proj1 (subtract_stock_positive_conservative ascii_lower milk_list
                  milk_stock milk_list_keys_NoDup milk_list_positive)).
Defined.

Example subtract_stock_milk :
  subtract_stock ascii_lower milk_list milk_stock
  = [(dairy, [("Milk"%string, 1, "L"%string);
              ("Butter"%string, 1, "pièce"%string)])].
Proof. vm_compute. reflexivity. Qed.

Lemma small_catalogue_unique :
  Forall (articles_unique ascii_lower) small_catalogue.
Proof.
  apply Forall_cons; [| apply Forall_nil].
  unfold articles_unique.
  apply NoDup_cons; [| apply NoDup_cons; [| apply NoDup_nil]].
  - intros [E | []]. vm_compute in E. discriminate E.
  - intros [].
Defined.

Lemma add_ingredient_idempotent_witness :
  Forall (articles_unique ascii_lower) small_catalogue
  /\ Forall (articles_unique ascii_lower)
       (fst (add_ingredient_to_catalogue ascii_lower small_catalogue
               "Abricot" "FRUITS")).
Proof.
  split; [exact small_catalogue_unique |].
  exact (proj2 (proj2 (add_ingredient_idempotent ascii_lower
                         small_catalogue "Abricot" "FRUITS"))
               small_catalogue_unique).
Defined.

Example add_abricot :
  add_ingredient_to_catalogue ascii_lower small_catalogue "Abricot" "FRUITS"
  = ([mk_cat_rayon "FRUITS" ["Abricot"; "banane"; "Pomme"]%string], true)
  /\ add_ingredient_to_catalogue ascii_lower small_catalogue "POMME" "FRUITS"
     = (small_catalogue, false)
  /\ add_ingredient_to_catalogue ascii_lower small_catalogue "Sel" "ÉPICERIE"
     = (small_catalogue ++ [mk_cat_rayon "ÉPICERIE" ["Sel"%string]], true).
Proof. repeat split; vm_compute; reflexivity. Qed.

Lemma display_name_from_creating_occurrence_witness :
  Dict.get mkey_dec ("milk"%string, dairy)
    (merge_loop ascii_lower [occ "Milk" dairy 1 "L"])
  = Some (mk_entry dairy "Milk" 1 "L")
  /\ exists e',
       Dict.get mkey_dec ("milk"%string, dairy)
         (merge_step ascii_lower
            (merge_loop ascii_lower [occ "Milk" dairy 1 "L"])
            (occ "MILK" dairy 2 "L"))
       = Some e'
       /\ m_nom e' = "Milk"%string /\ m_rayon e' = dairy
       /\ m_unite e' = "L"%string.
Proof.
  split; [vm_compute; reflexivity |].
  apply (proj1 (display_name_from_creating_occurrence ascii_lower)
           (merge_loop ascii_lower [occ "Milk" dairy 1 "L"])
           (occ "MILK" dairy 2 "L") ("milk"%string, dairy)
           (mk_entry dairy "Milk" 1 "L")).
  vm_compute. reflexivity.
Defined.

(** * Further properties *)

(** ** Sums *)

Lemma zsum_app (l1 l2 : list Z) : zsum (l1 ++ l2) = zsum l1 + zsum l2.
Proof.
  unfold zsum. induction l1 as [| x l1 IH]; simpl; [reflexivity |].
  rewrite IH. lia.
Qed.

Lemma zsum_perm (l l' : list Z) : Permutation l l' -> zsum l = zsum l'.
Proof.
  unfold zsum.
  induction 1 as [| x l l' P IH | x y l | l l' l'' P1 IH1 P2 IH2]; simpl;
    lia.
Qed.

Lemma total_app (g1 g2 : grouping) :
  total_quantite (g1 ++ g2) = total_quantite g1 + total_quantite g2.
Proof.
  unfold total_quantite. rewrite map_app. apply zsum_app.
Qed.

Lemma total_perm (g g' : grouping) :
  Permutation g g' -> total_quantite g = total_quantite g'.
Proof.
  intros P. unfold total_quantite. apply zsum_perm.
  apply Permutation_map. exact P.
Qed.

(** ** The merger on arbitrary input *)

Section MergerAlways.
Variable lower : string -> string.

Local Abbreviation sget := (Dict.get string_dec).
Local Abbreviation mget := (Dict.get mkey_dec).
Local Abbreviation mset := (Dict.set mkey_dec).

Lemma entries_set_new (m : list (mkey * merged_entry)) (k : mkey)
    (v : merged_entry) :
  mget k m = None ->
  entries_quantite (mset k v m) = entries_quantite m + m_quantite v.
Proof.
  intros G. rewrite set_new by exact G. unfold entries_quantite.
  rewrite map_app, zsum_app. unfold zsum. simpl. lia.
Qed.

Lemma entries_set_add (m : list (mkey * merged_entry)) (k : mkey)
    (e0 : merged_entry) (q : Z) :
  mget k m = Some e0 ->
  entries_quantite (mset k (add_quantite e0 q) m) = entries_quantite m + q.
Proof.
  intros G.
  destruct (set_existing mkey_dec k (add_quantite e0 q) e0 m G)
    as (d1 & d2 & E1 & E2 & _).
  rewrite E2, E1. unfold entries_quantite.
  rewrite !map_app, !zsum_app. unfold zsum. simpl. lia.
Qed.

Lemma input_quantite_snoc (l : list ingredient) (a : ingredient) :
  input_quantite (l ++ [a]) = input_quantite l + get_quantite a.
Proof.
  unfold input_quantite. rewrite map_app, zsum_app. unfold zsum. simpl. lia.
Qed.

Lemma loop_total (l : list ingredient) :
  entries_quantite (merge_loop lower l) = input_quantite l.
Proof.
  induction l as [| a l IH] using rev_ind; [reflexivity |].
  rewrite merge_loop_snoc, input_quantite_snoc.
  destruct (merge_step_set lower (merge_loop lower l) a)
    as (k0 & _ & [[G E] | (e0 & G & E)]); rewrite E.
  - rewrite entries_set_new by exact G. rewrite IH. reflexivity.
  - rewrite (entries_set_add _ k0 e0 _ G). rewrite IH. reflexivity.
Qed.

Lemma total_single (r : string) (items : list item) :
  total_quantite [(r, items)] = zsum (map item_quantite items).
Proof.
  unfold total_quantite. cbn [map snd]. unfold zsum at 1.
  cbn [fold_right]. lia.
Qed.

Lemma total_set_new (g : grouping) (r : string) (items : list item) :
  sget r g = None ->
  total_quantite (Dict.set string_dec r items g)
  = total_quantite g + zsum (map item_quantite items).
Proof.
  intros G. rewrite set_new by exact G. rewrite total_app, total_single.
  reflexivity.
Qed.

Lemma total_set_existing (g : grouping) (r : string)
    (old items : list item) :
  sget r g = Some old ->
  total_quantite (Dict.set string_dec r items g)
  = total_quantite g - zsum (map item_quantite old)
    + zsum (map item_quantite items).
Proof.
  intros G.
  destruct (set_existing string_dec r items old g G)
    as (d1 & d2 & E1 & E2 & _).
  rewrite E2, E1.
  change ((r, items) :: d2) with ([(r, items)] ++ d2).
  change ((r, old) :: d2) with ([(r, old)] ++ d2).
  rewrite !total_app, !total_single. lia.
Qed.

Lemma zsum_entry_item (e : merged_entry) :
  zsum (map item_quantite [entry_item e]) = m_quantite e.
Proof.
  unfold zsum, entry_item, item_quantite. cbn [map fold_right fst snd]. lia.
Qed.

Lemma total_group_step (g : grouping) (e : merged_entry) :
  total_quantite (group_step g e) = total_quantite g + m_quantite e.
Proof.
  unfold group_step. destruct (sget (m_rayon e) g) as [old |] eqn:G.
  - rewrite (total_set_existing g _ old _ G).
    rewrite map_app, zsum_app, zsum_entry_item. lia.
  - rewrite total_set_new by exact G. rewrite app_nil_l, zsum_entry_item.
    reflexivity.
Qed.

Lemma total_group_fold (entries : list merged_entry) :
  forall g,
    total_quantite (fold_left group_step entries g)
    = total_quantite g + zsum (map m_quantite entries).
Proof.
  induction entries as [| e entries IH]; intros g; simpl.
  - unfold zsum. simpl. lia.
  - rewrite IH, total_group_step. unfold zsum. simpl. lia.
Qed.

Lemma total_sort_sections (g : grouping) :
  total_quantite (sort_sections lower g) = total_quantite g.
Proof.
  unfold total_quantite, sort_sections. rewrite map_map. f_equal.
  apply map_ext. intros [r items]. cbn [fst snd]. apply zsum_perm.
  apply Permutation_map. apply sort_by_perm.
Qed.

Lemma merge_total (l : list ingredient) :
  total_quantite (merge_ingredients lower l) = input_quantite l.
Proof.
  unfold merge_ingredients, group_by_rayon.
  rewrite total_sort_sections, total_group_fold.
  unfold Dict.values. rewrite map_map.
  change (zsum (map (fun p => m_quantite (snd p)) (merge_loop lower l)))
    with (entries_quantite (merge_loop lower l)).
  rewrite loop_total. unfold total_quantite, zsum. simpl. lia.
Qed.

(** X1. Whatever the input, clashing keys included, the quantities held by
    the working map and the quantities listed by the merger both add up to
    the quantities of the occurrences (a missing quantity counting for 1):
    overall nothing is lost and nothing is counted twice. *)
Theorem merge_total_preserved (l : list ingredient) :
  entries_quantite (merge_loop lower l) = input_quantite l
  /\ total_quantite (merge_ingredients lower l) = input_quantite l.
Proof.
  split.
  - apply loop_total.
  - apply merge_total.
Qed.

Lemma step_creates_key (m : list (mkey * merged_entry)) (a : ingredient)
    (k : mkey) (e : merged_entry) :
  mget k m = None ->
  mget k (merge_step lower m a) = Some e ->
  k = primary_key lower a \/ k = alt_key lower a.
Proof.
  intros G G'.
  destruct (merge_step_set lower m a)
    as (k0 & K & [[G0 E] | (e0 & G0 & E)]);
    rewrite E in G'; destruct (mkey_dec k0 k) as [Ek | Nk].
  - subst k0. exact K.
  - rewrite get_set_other in G' by exact Nk. congruence.
  - subst k0. exact K.
  - rewrite get_set_other in G' by exact Nk. congruence.
Qed.

Lemma loop_key_rayon (l : list ingredient) (k : mkey) (e : merged_entry) :
  mget k (merge_loop lower l) = Some e -> m_rayon e = snd k.
Proof.
  intros G.
  destruct (loop_bucket_origin lower l k e G)
    as (before & a & after & _ & Gb & Gc & _ & Hr & _).
  rewrite merge_loop_snoc in Gc.
  destruct (step_creates_key _ a k _ Gb Gc) as [-> | ->]; exact Hr.
Qed.

Lemma loop_covers (l : list ingredient) (a : ingredient) :
  In a l ->
  exists k e, mget k (merge_loop lower l) = Some e /\ m_rayon e = rayon a.
Proof.
  induction l as [| x l IH] using rev_ind; intros I; [destruct I |].
  rewrite merge_loop_snoc. apply in_app_or in I.
  destruct I as [I | [E | []]].
  - destruct (IH I) as (k & e & G & R).
    destruct (step_keeps_bucket lower _ x k e G) as (e' & G' & _ & R' & _).
    exists k, e'. split; [exact G' | congruence].
  - subst x.
    destruct (merge_step_set lower (merge_loop lower l) a)
      as (k0 & K & [[G0 E] | (e0 & G0 & E)]); rewrite E.
    + exists k0, (new_entry a). rewrite get_set_same. auto.
    + exists k0, (add_quantite e0 (get_quantite a)).
      rewrite get_set_same. split; [reflexivity |].
      apply loop_key_rayon in G0. simpl. rewrite G0.
      destruct K as [-> | ->]; reflexivity.
Qed.

Lemma merge_keys_In (l : list ingredient) (r : string) :
  In r (Dict.keys (merge_ingredients lower l))
  <-> exists a, In a l /\ rayon a = r.
Proof.
  split.
  - intros I.
    destruct (sget r (merge_ingredients lower l)) as [items |] eqn:G;
      [| apply get_None_keys in G; contradiction].
    pose proof (merge_get_section_items lower l r) as H. rewrite G in H.
    destruct H as [E N]. destruct items as [| x items]; [congruence |].
    assert (Ix : In x (section_items lower l r))
      by (rewrite <- E; left; reflexivity).
    apply In_section_items in Ix. destruct Ix as (k & e & Ge & R & _).
    destruct (loop_bucket_origin lower l k e Ge)
      as (before & a & after & El & _ & _ & _ & Hr & _).
    exists a. split; [| congruence].
    rewrite El. apply in_or_app. right. left. reflexivity.
  - intros (a & Ia & R).
    destruct (loop_covers l a Ia) as (k & e & G & Re).
    assert (Ix : In (entry_item e) (section_items lower l r)).
    { apply In_section_items. exists k, e. repeat split; congruence. }
    unfold section_items in Ix.
    destruct (sget r (merge_ingredients lower l)) as [items |] eqn:Gr;
      [| destruct Ix].
    apply get_Some_In in Gr. apply (in_map fst) in Gr. exact Gr.
Qed.

Lemma merge_In_section_items (l : list ingredient) (r : string)
    (items : list item) :
  In (r, items) (merge_ingredients lower l) ->
  items = section_items lower l r /\ items <> [].
Proof.
  intros I. apply (In_get_Some string_dec) in I; [| apply merge_keys_NoDup].
  pose proof (merge_get_section_items lower l r) as H. rewrite I in H.
  exact H.
Qed.

Lemma merge_shopping_list (l : list ingredient) :
  shopping_list lower (merge_ingredients lower l).
Proof.
  constructor.
  - apply merge_keys_NoDup.
  - intros r items I. apply merge_In_section_items in I. tauto.
  - intros r items I. apply merge_In_section_items in I.
    destruct I as [-> _]. rewrite section_items_sorted.
    unfold items_sorted. apply sort_by_strongly_sorted.
Qed.

Lemma merge_keys_map (l : list ingredient) (r : string) :
  In r (Dict.keys (merge_ingredients lower l)) <-> In r (map rayon l).
Proof.
  rewrite merge_keys_In, in_map_iff.
  split; intros (a & H1 & H2); exists a; auto.
Qed.

(** X2. The output of the merger is a well-formed shopping list for any
    input: every section occurs once, no section is listed without items,
    and the items of each section are in increasing order of lowercased
    name.  Its sections are exactly the sections named by the
    occurrences. *)
Theorem merge_output_well_formed (l : list ingredient) :
  shopping_list lower (merge_ingredients lower l)
  /\ (forall r, In r (Dict.keys (merge_ingredients lower l))
                <-> In r (map rayon l)).
Proof.
  split; [apply merge_shopping_list |].
  intros r. apply merge_keys_map.
Qed.

Lemma loop_positive (l : list ingredient) :
  (forall a, In a l -> 0 < get_quantite a) ->
  forall k e, mget k (merge_loop lower l) = Some e -> 0 < m_quantite e.
Proof.
  induction l as [| a l IH] using rev_ind; intros Pos k e G;
    [discriminate |].
  rewrite merge_loop_snoc in G.
  assert (Pa : 0 < get_quantite a)
    by (apply Pos; apply in_or_app; right; left; reflexivity).
  assert (Pl : forall b, In b l -> 0 < get_quantite b)
    by (intros b Ib; apply Pos; apply in_or_app; left; exact Ib).
  destruct (merge_step_set lower (merge_loop lower l) a)
    as (k0 & _ & [[G0 E] | (e0 & G0 & E)]); rewrite E in G;
    destruct (get_set_inv _ _ _ _ _ G) as [[-> ->] | [N G']].
  - exact Pa.
  - apply (IH Pl k e G').
  - simpl. pose proof (IH Pl k0 e0 G0). lia.
  - apply (IH Pl k e G').
Qed.

Lemma merge_positive (l : list ingredient) :
  (forall a, In a l -> 0 < get_quantite a) ->
  all_positive (merge_ingredients lower l).
Proof.
  intros Pos r items x I Ix. apply merge_In_section_items in I.
  destruct I as [-> _]. apply In_section_items in Ix.
  destruct Ix as (k & e & G & _ & ->).
  apply (loop_positive l Pos k e G).
Qed.

End MergerAlways.

(** ** The List Builder on arbitrary input *)

Lemma str_lt_asym (a b : string) : str_lt a b -> str_lt b a -> False.
Proof.
  unfold str_lt, String.ltb. rewrite (String.compare_antisym b a).
  destruct (String.compare a b); simpl; discriminate.
Qed.

Lemma sorted_same_members (l1 : list string) :
  forall l2,
    StronglySorted str_lt l1 -> StronglySorted str_lt l2 ->
    (forall x, In x l1 <-> In x l2) -> l1 = l2.
Proof.
  induction l1 as [| x l1 IH]; intros l2 S1 S2 M.
  - destruct l2 as [| y l2]; [reflexivity |].
    exfalso. apply (proj2 (M y)). left. reflexivity.
  - destruct l2 as [| y l2].
    + exfalso. apply (proj1 (M x)). left. reflexivity.
    + apply StronglySorted_inv in S1. destruct S1 as [S1 F1].
      apply StronglySorted_inv in S2. destruct S2 as [S2 F2].
      rewrite Forall_forall in F1, F2.
      assert (E : x = y).
      { destruct (proj1 (M x) (or_introl eq_refl)) as [E | Ix];
          [congruence |].
        destruct (proj2 (M y) (or_introl eq_refl)) as [E | Iy];
          [congruence |].
        exfalso. apply (str_lt_asym x y); [apply F1 | apply F2]; assumption. }
      subst y. f_equal. apply IH; [exact S1 | exact S2 |].
      intros z. split; intros Iz.
      * destruct (proj1 (M z) (or_intror Iz)) as [E | I]; [| exact I].
        subst z. exfalso. apply (str_lt_asym x x); apply F1; exact Iz.
      * destruct (proj2 (M z) (or_intror Iz)) as [E | I]; [| exact I].
        subst z. exfalso. apply (str_lt_asym x x); apply F2; exact Iz.
Qed.

Section OrderAlways.
Variable merged : grouping.

Lemma order_rayons_keys_NoDup : NoDup (Dict.keys (order_rayons merged)).
Proof.
  rewrite keys_order_rayons. apply NoDup_app.
  - apply NoDup_filter. apply rayon_order_NoDup.
  - apply other_rayons_NoDup.
  - intros r I J. apply filter_In in I. apply other_rayons_In in J. tauto.
Qed.

Lemma order_rayons_In (r : string) (items : list item) :
  NoDup (Dict.keys merged) ->
  (In (r, items) (order_rayons merged) <-> In (r, items) merged).
Proof.
  intros ND. split; intros I.
  - apply (In_get_Some string_dec) in I; [| apply order_rayons_keys_NoDup].
    rewrite get_order_rayons in I. apply get_Some_In in I. exact I.
  - apply (In_get_Some string_dec) in I; [| exact ND].
    rewrite <- get_order_rayons in I. apply get_Some_In in I. exact I.
Qed.

Lemma order_rayons_perm :
  NoDup (Dict.keys merged) -> Permutation (order_rayons merged) merged.
Proof.
  intros ND. apply NoDup_Permutation.
  - apply NoDup_map_inv with (f := fst). apply order_rayons_keys_NoDup.
  - apply NoDup_map_inv with (f := fst). exact ND.
  - intros [r items]. apply order_rayons_In. exact ND.
Qed.

End OrderAlways.

Lemma order_rayons_keys_ext (m m' : grouping) :
  (forall r, In r (Dict.keys m) <-> In r (Dict.keys m')) ->
  Dict.keys (order_rayons m) = Dict.keys (order_rayons m').
Proof.
  intros M. rewrite !keys_order_rayons. f_equal.
  - apply filter_ext. intros r.
    destruct (in_merged m r) eqn:A; destruct (in_merged m' r) eqn:B;
      try reflexivity.
    + apply in_merged_keys in A. apply M in A. apply in_merged_keys in A.
      congruence.
    + apply in_merged_keys in B. apply M in B. apply in_merged_keys in B.
      congruence.
  - apply sorted_same_members; try apply other_rayons_sorted.
    intros r. rewrite !other_rayons_In. rewrite M. tauto.
Qed.

Section BuilderAlways.
Variable lower : string -> string.

Lemma shopping_list_order_rayons (m : grouping) :
  shopping_list lower m -> shopping_list lower (order_rayons m).
Proof.
  intros [K N S]. constructor.
  - apply order_rayons_keys_NoDup.
  - intros r items I. apply (order_rayons_In m r items K) in I.
    apply (N r items I).
  - intros r items I. apply (order_rayons_In m r items K) in I.
    apply (S r items I).
Qed.

(** X4. Whatever the two groupings, the list built by the List Builder is
    a well-formed shopping list: every section occurs once, no section is
    listed without items, and the items of each section are in increasing
    order of lowercased name. *)
Theorem build_final_list_is_shopping_list
    (recipe_items_by_rayon free_items_by_rayon : grouping) :
  shopping_list lower
    (build_final_list lower recipe_items_by_rayon free_items_by_rayon).
Proof.
  unfold build_final_list. apply shopping_list_order_rayons.
  apply merge_shopping_list.
Qed.

Lemma input_quantite_app (l1 l2 : list ingredient) :
  input_quantite (l1 ++ l2) = input_quantite l1 + input_quantite l2.
Proof.
  unfold input_quantite. rewrite map_app. apply zsum_app.
Qed.

Lemma input_quantite_flatten (g : grouping) :
  input_quantite (flatten_grouping g) = total_quantite g.
Proof.
  induction g as [| [r items] g IH].
  - reflexivity.
  - change ((r, items) :: g) with ([(r, items)] ++ g).
    unfold flatten_grouping in *. rewrite flat_map_app, input_quantite_app.
    rewrite total_app, total_single, IH. f_equal.
    cbn [flat_map fst snd]. rewrite app_nil_r.
    unfold input_quantite. rewrite map_map. reflexivity.
Qed.

(** X5. The quantities listed by the List Builder add up to the
    quantities of its two inputs, whatever they are. *)
Theorem build_final_list_total
    (recipe_items_by_rayon free_items_by_rayon : grouping) :
  total_quantite
    (build_final_list lower recipe_items_by_rayon free_items_by_rayon)
  = total_quantite recipe_items_by_rayon
    + total_quantite free_items_by_rayon.
Proof.
  unfold build_final_list.
  rewrite (total_perm _ _ (order_rayons_perm _ (merge_keys_NoDup lower _))).
  rewrite merge_total, input_quantite_app.
  rewrite !input_quantite_flatten. reflexivity.
Qed.

Lemma rayon_flatten (g : grouping) (r : string) :
  In r (map rayon (flatten_grouping g))
  <-> exists items, In (r, items) g /\ items <> [].
Proof.
  unfold flatten_grouping. rewrite in_map_iff. split.
  - intros (a & R & I). apply in_flat_map in I.
    destruct I as ([r' items] & Ip & Ia). cbn [fst snd] in Ia.
    apply in_map_iff in Ia. destruct Ia as (x & E & Ix).
    subst a. simpl in R. subst r'. exists items. split; [exact Ip |].
    intros E. subst items. destruct Ix.
  - intros (items & Ip & N). destruct items as [| x items]; [congruence |].
    exists (mk_ingredient (item_nom x) r (Some (item_quantite x))
              (Some (item_unite x))).
    split; [reflexivity |]. apply in_flat_map. exists (r, x :: items).
    split; [exact Ip |]. left. reflexivity.
Qed.

(** X6. The sections of the built list are those holding at least one
    item in either input, and their order does not depend on which input
    names them: swapping the two inputs gives the same sequence of
    sections. *)
Theorem build_final_list_sections
    (recipe_items_by_rayon free_items_by_rayon : grouping) :
  (forall r,
      In r (Dict.keys (build_final_list lower recipe_items_by_rayon
                         free_items_by_rayon))
      <-> exists items,
            (In (r, items) recipe_items_by_rayon
             \/ In (r, items) free_items_by_rayon)
            /\ items <> [])
  /\ Dict.keys (build_final_list lower recipe_items_by_rayon
                  free_items_by_rayon)
     = Dict.keys (build_final_list lower free_items_by_rayon
                    recipe_items_by_rayon).
Proof.
  assert (K : forall g1 g2 r,
             In r (Dict.keys (merge_ingredients lower
                                (flatten_grouping g1 ++ flatten_grouping g2)))
             <-> (exists items, In (r, items) g1 /\ items <> [])
                 \/ (exists items, In (r, items) g2 /\ items <> [])).
  { intros g1 g2 r. rewrite merge_keys_map.
    rewrite map_app, in_app_iff, !rayon_flatten. reflexivity. }
  split.
  - intros r. unfold build_final_list.
    assert (O : forall m, In r (Dict.keys (order_rayons m))
                          <-> In r (Dict.keys m)).
    { intros m. rewrite keys_order_rayons, in_app_iff, filter_In.
      rewrite other_rayons_In, in_merged_keys.
      destruct (in_dec string_dec r rayon_order); tauto. }
    rewrite O, K. split.
    + intros [(items & I & N) | (items & I & N)]; exists items; auto.
    + intros (items & [I | I] & N); [left | right]; exists items; auto.
  - unfold build_final_list. apply order_rayons_keys_ext.
    intros r. rewrite !K. tauto.
Qed.

Lemma qsum_app (l1 l2 : list ingredient) (c : combo) :
  qsum lower (l1 ++ l2) c = qsum lower l1 c + qsum lower l2 c.
Proof.
  unfold qsum. rewrite filter_app, map_app.
  change (fold_right Z.add 0) with zsum. apply zsum_app.
Qed.

(** X7. Items of the two inputs with the same name up to case, section
    and unit are combined: when no two items clash on a bucket key, the
    quantity the built list shows for a combination is the sum of the
    quantities both inputs hold for it. *)
Theorem build_final_list_combines
    (recipe_items_by_rayon free_items_by_rayon : grouping) (c : combo) :
  collision_free lower
    (flatten_grouping recipe_items_by_rayon
     ++ flatten_grouping free_items_by_rayon) = true ->
  grouping_total lower
    (build_final_list lower recipe_items_by_rayon free_items_by_rayon) c
  = qsum lower (flatten_grouping recipe_items_by_rayon) c
    + qsum lower (flatten_grouping free_items_by_rayon) c.
Proof.
  intros CF. rewrite <- qsum_app.
  rewrite <- (merge_sum_preserved lower _ c CF).
  unfold grouping_total, output_total, section_items, build_final_list.
  rewrite get_order_rayons. reflexivity.
Qed.

End BuilderAlways.

(** ** The Stock Subtractor: what the index holds and what is kept *)

Lemma leading_run_same (u : string) (x : item) (l : list item) :
  item_unite x = u -> leading_run u (x :: l) = x :: leading_run u l.
Proof.
  intros E. cbn [leading_run]. apply str_eqb_true in E. rewrite E.
  reflexivity.
Qed.

Lemma leading_run_other (u : string) (x : item) (l : list item) :
  item_unite x <> u -> leading_run u (x :: l) = [].
Proof.
  intros N. cbn [leading_run]. apply str_eqb_false in N. rewrite N.
  reflexivity.
Qed.

Lemma fold_combine_stock (entries : list item) :
  fold_left combine_stock entries None = last_unit_total entries.
Proof.
  induction entries as [| x entries IH] using rev_ind; [reflexivity |].
  rewrite fold_left_app. cbn [fold_left]. rewrite IH.
  unfold last_unit_total. rewrite rev_app_distr. cbn [rev app].
  rewrite (leading_run_same (item_unite x) x _ eq_refl).
  destruct (rev entries) as [| y older]; unfold combine_stock.
  - cbn [leading_run map]. unfold zsum. cbn [fold_right].
    rewrite Z.add_0_r. reflexivity.
  - cbn [s_unite s_quantite].
    destruct (str_eqb (item_unite y) (item_unite x)) eqn:E.
    + apply str_eqb_true in E. rewrite <- E.
      cbn [map]. unfold zsum at 2. cbn [fold_right]. fold (zsum
        (map item_quantite (leading_run (item_unite y) (y :: older)))).
      f_equal. f_equal. lia.
    + apply str_eqb_false in E. rewrite (leading_run_other _ y _ E).
      cbn [map]. unfold zsum. cbn [fold_right]. rewrite Z.add_0_r.
      reflexivity.
Qed.

Section StockAlways.
Variable lower : string -> string.

Local Abbreviation sget := (Dict.get string_dec).
Local Abbreviation mget := (Dict.get mkey_dec).

Lemma index_lookup_fold (stock_items : grouping) (k : mkey) :
  mget k (build_stock_index lower stock_items)
  = fold_left combine_stock (stock_entries_for lower k stock_items) None.
Proof.
  unfold build_stock_index, stock_entries_for.
  rewrite get_index_fold. reflexivity.
Qed.

(** X8. Under each key (name lowercased, section) the stock index holds
    the unit of the last stock tuple of that key, with the sum of the
    quantities of the tuples that end the sequence with that unit:
    everything recorded before the last change of unit is forgotten. *)
Theorem stock_index_last_unit (stock_items : grouping) (k : mkey) :
  mget k (build_stock_index lower stock_items)
  = last_unit_total (stock_entries_for lower k stock_items).
Proof.
  rewrite index_lookup_fold. apply fold_combine_stock.
Qed.

Lemma subtract_item_shape (idx : list (mkey * stock_entry)) (r : string)
    (x : item) :
  subtract_item lower idx r x = []
  \/ exists y, subtract_item lower idx r x = [y]
               /\ item_nom y = item_nom x /\ item_unite y = item_unite x
               /\ (y = x
                   \/ exists st,
                        mget (lower (item_nom x), r) idx = Some st
                        /\ item_quantite y
                           = item_quantite x - s_quantite st
                        /\ 0 < item_quantite y).
Proof.
  unfold subtract_item.
  destruct (mget (lower (item_nom x), r) idx) as [st |].
  - destruct (str_eqb (s_unite st) (item_unite x)).
    + destruct (0 <? item_quantite x - s_quantite st) eqn:B.
      * right. apply Z.ltb_lt in B.
        exists (item_nom x, item_quantite x - s_quantite st, item_unite x).
        repeat split. right. exists st. repeat split. exact B.
      * left. reflexivity.
    + right. exists x. auto.
  - right. exists x. auto.
Qed.

Lemma subtract_sections_keys (idx : list (mkey * stock_entry))
    (l : grouping) (r : string) :
  In r (Dict.keys (subtract_sections lower idx l)) -> In r (Dict.keys l).
Proof.
  unfold Dict.keys. rewrite !in_map_iff.
  intros ([r' items] & E & I). cbn [fst] in E. subst r'.
  apply In_subtract_sections in I. destruct I as (old & Io & _).
  exists (r, old). auto.
Qed.

Lemma subtract_sections_NoDup (idx : list (mkey * stock_entry))
    (l : grouping) :
  NoDup (Dict.keys l) -> NoDup (Dict.keys (subtract_sections lower idx l)).
Proof.
  induction l as [| [r items] l IH]; intros ND; [constructor |].
  inversion ND as [| ? ? Hn ND']; subst.
  change (subtract_sections lower idx ((r, items) :: l))
    with (match flat_map (subtract_item lower idx r) items with
          | [] => []
          | x :: new => [(r, x :: new)]
          end ++ subtract_sections lower idx l).
  destruct (flat_map (subtract_item lower idx r) items) as [| x new].
  - apply IH. exact ND'.
  - cbn [app Dict.keys map fst]. constructor; [| apply IH; exact ND'].
    intros I. apply Hn. apply (subtract_sections_keys idx l r I).
Qed.

Lemma subtract_items_sorted (idx : list (mkey * stock_entry)) (r : string)
    (items : list item) :
  items_sorted lower items ->
  items_sorted lower (flat_map (subtract_item lower idx r) items).
Proof.
  unfold items_sorted. induction items as [| x items IH]; intros S.
  - constructor.
  - apply StronglySorted_inv in S. destruct S as [S F].
    cbn [flat_map].
    destruct (subtract_item_shape idx r x) as [E | (y & E & Hn & _)];
      rewrite E; [apply IH; exact S |].
    cbn [app]. constructor; [apply IH; exact S |].
    rewrite Forall_forall in *. intros z Iz.
    apply in_flat_map in Iz. destruct Iz as (w & Iw & Izw).
    specialize (F w Iw). unfold key_le in *. rewrite Hn.
    destruct (subtract_item_inv lower idx r w z Izw) as [-> | (_ & Hz & _)];
      [exact F | rewrite Hz; exact F].
Qed.

Lemma subtract_sections_shopping_list (idx : list (mkey * stock_entry))
    (final_list : grouping) :
  shopping_list lower final_list ->
  shopping_list lower (subtract_sections lower idx final_list).
Proof.
  intros [K N S]. constructor.
  - apply subtract_sections_NoDup. exact K.
  - intros r items I. apply In_subtract_sections in I.
    destruct I as (old & _ & _ & NE). exact NE.
  - intros r items I. apply In_subtract_sections in I.
    destruct I as (old & Io & -> & _).
    apply subtract_items_sorted. apply (S r old Io).
Qed.

(** X9. Subtracting stock keeps a shopping list well formed: sections
    stay distinct, none is left without items, and the items of each
    section stay in increasing order of lowercased name. *)
Theorem subtract_stock_keeps_shopping_list
    (final_list stock_items : grouping) :
  shopping_list lower final_list ->
  shopping_list lower (subtract_stock lower final_list stock_items).
Proof.
  intros H. rewrite subtract_stock_sections by (destruct H; assumption).
  apply subtract_sections_shopping_list. exact H.
Qed.

Lemma flat_map_single {A : Type} (f : A -> list A) (l : list A) :
  (forall x, In x l -> f x = [x]) -> flat_map f l = l.
Proof.
  induction l as [| x l IH]; intros H; [reflexivity |].
  cbn [flat_map]. rewrite (H x) by (left; reflexivity).
  rewrite IH; [reflexivity |]. intros y I. apply H. right. exact I.
Qed.

Lemma subtract_sections_id (idx : list (mkey * stock_entry))
    (l : grouping) :
  (forall r items, In (r, items) l -> items <> []) ->
  (forall r items x, In (r, items) l -> In x items ->
                     subtract_item lower idx r x = [x]) ->
  subtract_sections lower idx l = l.
Proof.
  induction l as [| [r items] l IH]; intros N H; [reflexivity |].
  change (subtract_sections lower idx ((r, items) :: l))
    with (match flat_map (subtract_item lower idx r) items with
          | [] => []
          | x :: new => [(r, x :: new)]
          end ++ subtract_sections lower idx l).
  rewrite (flat_map_single (subtract_item lower idx r) items)
    by (intros x Ix; apply (H r items x); [left; reflexivity | exact Ix]).
  rewrite IH.
  - destruct items as [| x items]; [| reflexivity].
    exfalso. apply (N r []); [left |]; reflexivity.
  - intros r' items' I. apply (N r' items'). right. exact I.
  - intros r' items' x I. apply (H r' items' x). right. exact I.
Qed.

(** X10. Stock that names none of the items of the list (in particular an
    empty stock) leaves a list with distinct, non-empty sections exactly
    as it is. *)
Theorem subtract_stock_unrelated (final_list stock_items : grouping) :
  NoDup (Dict.keys final_list) ->
  (forall r items, In (r, items) final_list -> items <> []) ->
  stock_misses lower final_list stock_items ->
  subtract_stock lower final_list stock_items = final_list.
Proof.
  intros K N M. rewrite subtract_stock_sections by exact K.
  apply subtract_sections_id; [exact N |].
  intros r items x I Ix. apply subtract_item_no_stock.
  rewrite index_lookup_fold, (M r items x I Ix). reflexivity.
Qed.

Lemma combine_stock_nonneg (entries : list item) :
  (forall x, In x entries -> 0 <= item_quantite x) ->
  forall acc,
    (forall st, acc = Some st -> 0 <= s_quantite st) ->
    forall st, fold_left combine_stock entries acc = Some st ->
               0 <= s_quantite st.
Proof.
  induction entries as [| x entries IH]; intros P acc A st E.
  - apply A. exact E.
  - cbn [fold_left] in E. apply (IH (fun y I => P y (or_intror I)) _) in E;
      [exact E |].
    intros st' E'. pose proof (P x (or_introl eq_refl)) as Px.
    unfold combine_stock in E'. destruct acc as [st0 |].
    + pose proof (A st0 eq_refl) as A0.
      destruct (str_eqb (s_unite st0) (item_unite x));
        inversion E'; subst; cbn [s_quantite]; lia.
    + inversion E'; subst. exact Px.
Qed.

Lemma stock_index_nonneg (stock_items : grouping) :
  stock_nonnegative stock_items ->
  forall k st,
    mget k (build_stock_index lower stock_items) = Some st ->
    0 <= s_quantite st.
Proof.
  intros P k st G. rewrite index_lookup_fold in G.
  apply (combine_stock_nonneg _) with (acc := None) in G;
    [exact G | | discriminate].
  intros x Ix. unfold stock_entries_for in Ix. apply in_map_iff in Ix.
  destruct Ix as ([r y] & E & I). cbn [snd] in E. subst y.
  apply filter_In in I. destruct I as [I _].
  unfold stock_triples in I. apply in_flat_map in I.
  destruct I as ([r' items] & Ip & Ix). cbn [fst snd] in Ix.
  apply in_map_iff in Ix. destruct Ix as (y & E & Iy).
  inversion E; subst. apply (P r items x Ip Iy).
Qed.

(** X11. With non-negative stock quantities the subtractor never renames
    an item, never changes its unit, never moves it to another section
    and never increases its quantity: every item of the result stands for
    an item of the same section of the list, with the same name and unit
    and at most its quantity. *)
Theorem subtract_stock_never_increases
    (final_list stock_items : grouping) :
  NoDup (Dict.keys final_list) ->
  stock_nonnegative stock_items ->
  forall r items y,
    In (r, items) (subtract_stock lower final_list stock_items) ->
    In y items ->
    exists old x,
      In (r, old) final_list /\ In x old
      /\ item_nom y = item_nom x /\ item_unite y = item_unite x
      /\ item_quantite y <= item_quantite x.
Proof.
  intros K P r items y I Iy. rewrite subtract_stock_sections in I by exact K.
  apply In_subtract_sections in I. destruct I as (old & Io & -> & _).
  apply in_flat_map in Iy. destruct Iy as (x & Ix & Iyx).
  exists old, x. repeat split; try assumption;
    destruct (subtract_item_shape (build_stock_index lower stock_items) r x)
      as [E | (z & E & Hn & Hu & Hq)];
    rewrite E in Iyx; try (destruct Iyx; fail);
    destruct Iyx as [<- | []]; try assumption.
  destruct Hq as [-> | (st & G & Q & _)]; [lia |].
  pose proof (stock_index_nonneg stock_items P _ st G). lia.
Qed.

End StockAlways.

(** ** The Catalogue Updater: result, content and the saving loop *)

Section CatalogueAlways.
Variable lower : string -> string.

Lemma catalogue_size_app (c1 c2 : list cat_rayon) :
  catalogue_size (c1 ++ c2) = (catalogue_size c1 + catalogue_size c2)%nat.
Proof.
  unfold catalogue_size. induction c1 as [| s c1 IH]; [reflexivity |].
  cbn [app fold_right]. rewrite IH. lia.
Qed.

Lemma add_true_grows (catalogue : list cat_rayon) (n r : string) :
  snd (add_ingredient_to_catalogue lower catalogue n r) = true ->
  (catalogue_size catalogue
   < catalogue_size (fst (add_ingredient_to_catalogue lower catalogue n r)))%nat.
Proof.
  induction catalogue as [| s rest IH]; cbn [add_ingredient_to_catalogue].
  - intros _. unfold catalogue_size. cbn. lia.
  - destruct (str_eqb (cat_nom s) r).
    + destruct (str_in (lower n) (map lower (articles s))); cbn [negb fst snd].
      * discriminate.
      * intros _. unfold catalogue_size. cbn [fold_right articles].
        rewrite (Permutation_length (sort_by_perm lower (articles s ++ [n]))).
        rewrite length_app. cbn [List.length]. lia.
    + cbn [fst snd]. intros E. specialize (IH E).
      unfold catalogue_size in *. cbn [fold_right]. lia.
Qed.

Lemma add_false_unchanged (catalogue : list cat_rayon) (n r : string) :
  snd (add_ingredient_to_catalogue lower catalogue n r) = false ->
  fst (add_ingredient_to_catalogue lower catalogue n r) = catalogue.
Proof.
  induction catalogue as [| s rest IH]; cbn [add_ingredient_to_catalogue].
  - discriminate.
  - destruct (str_eqb (cat_nom s) r).
    + destruct (str_in (lower n) (map lower (articles s))); cbn [negb fst snd];
        [reflexivity | discriminate].
    + cbn [fst snd]. intros E. rewrite IH by exact E. reflexivity.
Qed.

Lemma add_result (catalogue : list cat_rayon) (n r : string) :
  snd (add_ingredient_to_catalogue lower catalogue n r)
  = negb (in_catalogue lower catalogue n r).
Proof.
  induction catalogue as [| s rest IH];
    cbn [add_ingredient_to_catalogue in_catalogue].
  - reflexivity.
  - destruct (str_eqb (cat_nom s) r).
    + destruct (str_in (lower n) (map lower (articles s))); reflexivity.
    + exact IH.
Qed.

(** X12. The updater returns [False] exactly when the ingredient is
    already, up to case, an article of the first section of that name, and
    its result tells whether the catalogue changed: [False] if and only if
    the catalogue is left as it was. *)
Theorem add_ingredient_result (catalogue : list cat_rayon)
    (nom_ingredient rayon_nom : string) :
  let res :=
    add_ingredient_to_catalogue lower catalogue nom_ingredient rayon_nom in
  snd res = negb (in_catalogue lower catalogue nom_ingredient rayon_nom)
  /\ (snd res = false <-> fst res = catalogue).
Proof.
  intros res. unfold res. split; [apply add_result |]. split.
  - apply add_false_unchanged.
  - intros E.
    destruct (snd (add_ingredient_to_catalogue lower catalogue nom_ingredient
                     rayon_nom)) eqn:B; [| reflexivity].
    pose proof (add_true_grows catalogue nom_ingredient rayon_nom B) as S.
    rewrite E in S. lia.
Qed.

Lemma add_present (catalogue : list cat_rayon) (n r : string) :
  in_catalogue lower
    (fst (add_ingredient_to_catalogue lower catalogue n r)) n r = true.
Proof.
  induction catalogue as [| s rest IH]; cbn [add_ingredient_to_catalogue].
  - cbn [fst in_catalogue cat_nom articles map].
    assert (E : str_eqb r r = true) by (apply str_eqb_true; reflexivity).
    rewrite E. apply str_in_true. left. reflexivity.
  - destruct (str_eqb (cat_nom s) r) eqn:E.
    + destruct (str_in (lower n) (map lower (articles s))) eqn:I;
        cbn [negb fst in_catalogue cat_nom articles]; rewrite E.
      * exact I.
      * apply str_in_true. apply in_map. apply sort_by_In.
        apply in_or_app. right. left. reflexivity.
    + cbn [fst in_catalogue]. rewrite E. exact IH.
Qed.

Lemma add_keeps_present (catalogue : list cat_rayon) (n r m s : string) :
  in_catalogue lower catalogue m s = true ->
  in_catalogue lower
    (fst (add_ingredient_to_catalogue lower catalogue n r)) m s = true.
Proof.
  induction catalogue as [| s0 rest IH];
    cbn [add_ingredient_to_catalogue in_catalogue]; [discriminate |].
  destruct (str_eqb (cat_nom s0) r) eqn:E.
  - destruct (str_in (lower n) (map lower (articles s0))) eqn:I;
      cbn [negb fst in_catalogue cat_nom articles]; [tauto |].
    destruct (str_eqb (cat_nom s0) s); [| tauto].
    intros H. apply str_in_true in H. apply str_in_true.
    apply in_map_iff in H. destruct H as (x & Ex & Ix).
    apply in_map_iff. exists x. split; [exact Ex |].
    apply sort_by_In. apply in_or_app. left. exact Ix.
  - cbn [fst in_catalogue]. destruct (str_eqb (cat_nom s0) s); [tauto |].
    exact IH.
Qed.

(** X13. After a call the ingredient is, up to case, an article of the
    first section of the given name, and nothing that was findable in the
    catalogue stops being so. *)
Theorem add_ingredient_present (catalogue : list cat_rayon)
    (nom_ingredient rayon_nom : string) :
  let after :=
    fst (add_ingredient_to_catalogue lower catalogue nom_ingredient
           rayon_nom) in
  in_catalogue lower after nom_ingredient rayon_nom = true
  /\ (forall m s, in_catalogue lower catalogue m s = true ->
                  in_catalogue lower after m s = true).
Proof.
  intros after. unfold after. split.
  - apply add_present.
  - intros m s. apply add_keeps_present.
Qed.

(** X14. A call changes at most one section.  Either nothing changes; or
    no section has the given name and a section holding the single new
    article is appended; or the first section of that name, which lacks
    the article up to case, receives it, its articles becoming the old
    ones and the new one in increasing order of lowercase form, all other
    sections being left as they are and where they are. *)
Theorem add_ingredient_effect (catalogue : list cat_rayon)
    (nom_ingredient rayon_nom : string) :
  let res :=
    add_ingredient_to_catalogue lower catalogue nom_ingredient rayon_nom in
  res = (catalogue, false)
  \/ ((forall s, In s catalogue -> cat_nom s <> rayon_nom)
      /\ res = (catalogue ++ [mk_cat_rayon rayon_nom [nom_ingredient]],
                true))
  \/ (exists before s after arts,
        catalogue = before ++ s :: after
        /\ (forall s0, In s0 before -> cat_nom s0 <> rayon_nom)
        /\ cat_nom s = rayon_nom
        /\ ~ In (lower nom_ingredient) (map lower (articles s))
        /\ Permutation arts (nom_ingredient :: articles s)
        /\ StronglySorted (key_le lower) arts
        /\ res = (before ++ mk_cat_rayon rayon_nom arts :: after, true)).
Proof.
  cbn zeta.
  induction catalogue as [| s rest IH]; cbn [add_ingredient_to_catalogue].
  - right. left. split; [intros s [] | reflexivity].
  - destruct (str_eqb (cat_nom s) rayon_nom) eqn:E.
    + destruct (str_in (lower nom_ingredient) (map lower (articles s)))
        eqn:I; cbn [negb]; [left; reflexivity |].
      right. right.
      exists [], s, rest, (sort_by lower (articles s ++ [nom_ingredient])).
      apply str_eqb_true in E. apply str_in_false in I.
      repeat split; try assumption.
      * intros s0 [].
      * apply perm_trans with (articles s ++ [nom_ingredient]).
        -- apply sort_by_perm.
        -- apply Permutation_sym. apply Permutation_cons_append.
      * apply sort_by_strongly_sorted.
      * rewrite E. reflexivity.
    + apply str_eqb_false in E.
      destruct IH as [H | [[N H] | (before & s1 & after & arts & Ec & N & En
                                    & Hi & P & S & H)]]; rewrite H;
        cbn [fst snd].
      * left. reflexivity.
      * right. left. split; [| reflexivity].
        intros s0 [<- | I0]; [exact E | apply N; exact I0].
      * right. right. exists (s :: before), s1, after, arts.
        repeat split; try assumption.
        -- rewrite Ec. reflexivity.
        -- intros s0 [<- | I0]; [exact E | apply N; exact I0].
Qed.

Lemma loop_all_present (ingredients : list ingredient) :
  forall catalogue b,
    (forall ing, In ing ingredients ->
                 in_catalogue lower catalogue (nom ing) (rayon ing) = true) ->
    add_ingredients_to_catalogue lower catalogue ingredients b
    = (catalogue, b).
Proof.
  induction ingredients as [| ing rest IH]; intros catalogue b H;
    cbn [add_ingredients_to_catalogue]; [reflexivity |].
  pose proof (add_result catalogue (nom ing) (rayon ing)) as R.
  rewrite (H ing (or_introl eq_refl)) in R. cbn [negb] in R.
  rewrite R, (add_false_unchanged _ _ _ R).
  apply IH. intros x I. apply H. right. exact I.
Qed.

Lemma loop_keeps_present (ingredients : list ingredient) :
  forall catalogue b m s,
    in_catalogue lower catalogue m s = true ->
    in_catalogue lower
      (fst (add_ingredients_to_catalogue lower catalogue ingredients b))
      m s = true.
Proof.
  induction ingredients as [| ing rest IH]; intros catalogue b m s H;
    cbn [add_ingredients_to_catalogue]; [exact H |].
  apply IH. apply add_keeps_present. exact H.
Qed.

Lemma loop_present (ingredients : list ingredient) :
  forall catalogue b ing,
    In ing ingredients ->
    in_catalogue lower
      (fst (add_ingredients_to_catalogue lower catalogue ingredients b))
      (nom ing) (rayon ing) = true.
Proof.
  induction ingredients as [| x rest IH]; intros catalogue b ing I;
    [destruct I |].
  cbn [add_ingredients_to_catalogue]. destruct I as [<- | I].
  - apply loop_keeps_present. apply add_present.
  - apply IH. exact I.
Qed.

Lemma loop_flag (ingredients : list ingredient) :
  forall catalogue b,
    let res := add_ingredients_to_catalogue lower catalogue ingredients b in
    (catalogue_size catalogue <= catalogue_size (fst res))%nat
    /\ (snd res = false -> b = false /\ fst res = catalogue)
    /\ (snd res = true ->
        b = true
        \/ (catalogue_size catalogue < catalogue_size (fst res))%nat).
Proof.
  induction ingredients as [| ing rest IH]; intros catalogue b;
    cbn [add_ingredients_to_catalogue]; cbn zeta.
  - cbn [fst snd]. split; [lia | split; auto].
  - pose proof (add_true_grows catalogue (nom ing) (rayon ing)) as S.
    pose proof (add_false_unchanged catalogue (nom ing) (rayon ing)) as U.
    destruct (IH (fst (add_ingredient_to_catalogue lower catalogue (nom ing)
                         (rayon ing)))
                 (if snd (add_ingredient_to_catalogue lower catalogue
                            (nom ing) (rayon ing))
                  then true else b))
      as (L & F & T).
    destruct (snd (add_ingredient_to_catalogue lower catalogue (nom ing)
                     (rayon ing))).
    + specialize (S eq_refl). split; [| split].
      * lia.
      * intros E. destruct (F E) as [D _]. discriminate D.
      * intros _. right. lia.
    + rewrite (U eq_refl) in *. split; [| split].
      * exact L.
      * exact F.
      * exact T.
Qed.

(** X15. The loop run when a recipe is saved leaves every ingredient of
    the recipe findable, up to case, in the section it names; started with
    the flag unset, it ends with the flag unset exactly when the catalogue
    was not changed (so the catalogue is saved exactly when it changed);
    and running it again on the same ingredients changes nothing. *)
Theorem catalogue_loop_completes (catalogue : list cat_rayon)
    (ingredients : list ingredient) :
  let res :=
    add_ingredients_to_catalogue lower catalogue ingredients false in
  (forall ing, In ing ingredients ->
               in_catalogue lower (fst res) (nom ing) (rayon ing) = true)
  /\ (snd res = false <-> fst res = catalogue)
  /\ add_ingredients_to_catalogue lower (fst res) ingredients false
     = (fst res, false).
Proof.
  intros res. unfold res.
  destruct (loop_flag ingredients catalogue false) as (L & F & T).
  cbn zeta in L, F, T. split; [| split; [split |]].
  - intros ing I. apply loop_present. exact I.
  - intros E. apply (F E).
  - intros E.
    destruct (snd (add_ingredients_to_catalogue lower catalogue ingredients
                     false)); [| reflexivity].
    destruct (T eq_refl) as [D | D]; [discriminate D |].
    rewrite E in D. lia.
  - apply loop_all_present. intros ing I. apply loop_present. exact I.
Qed.

End CatalogueAlways.

(** ** Selecting recipes and computing the final list *)





Section Positive.
Variable lower : string -> string.

Lemma flatten_positive (g : grouping) :
  all_positive g ->
  forall a, In a (flatten_grouping g) -> 0 < get_quantite a.
Proof.
  intros P a I. unfold flatten_grouping in I. apply in_flat_map in I.
  destruct I as ([r items] & Ip & Ia). cbn [fst snd] in Ia.
  apply in_map_iff in Ia. destruct Ia as (x & <- & Ix).
  unfold get_quantite. cbn [quantite]. apply (P r items x Ip Ix).
Qed.

Lemma order_positive (m : grouping) :
  NoDup (Dict.keys m) -> all_positive m -> all_positive (order_rayons m).
Proof.
  intros K P r items x I Ix. apply (order_rayons_In m r items K) in I.
  apply (P r items x I Ix).
Qed.

Lemma build_positive (g1 g2 : grouping) :
  all_positive g1 -> all_positive g2 ->
  all_positive (build_final_list lower g1 g2).
Proof.
  intros P1 P2. unfold build_final_list.
  apply order_positive; [apply merge_keys_NoDup |].
  apply merge_positive. intros a I. apply in_app_or in I.
  destruct I as [I | I]; [apply (flatten_positive g1 P1 a I) |
                          apply (flatten_positive g2 P2 a I)].
Qed.


(** X3. Strictly positive quantities stay strictly positive: when every
    occurrence has a positive quantity (a missing one counting for 1) so
    has every entry listed by the merger, and when both inputs of the
    List Builder hold only positive quantities so does the built list. *)
Theorem quantities_stay_positive :
  (forall l,
      (forall a, In a l -> 0 < get_quantite a) ->
      all_positive (merge_ingredients lower l))
  /\ (forall recipe_items_by_rayon free_items_by_rayon,
        all_positive recipe_items_by_rayon ->
        all_positive free_items_by_rayon ->
        all_positive
          (build_final_list lower recipe_items_by_rayon
             free_items_by_rayon)).
Proof.
  split.
  - intros l P. apply merge_positive. exact P.
  - intros g1 g2 P1 P2. apply build_positive; assumption.
Qed.


End Positive.

(** ** Display strings *)

Lemma str_length_append (a b : string) :
  String.length (a ++ b) = (String.length a + String.length b)%nat.
Proof.
  induction a as [| c a IH]; cbn [append String.length].
  - reflexivity.
  - rewrite IH. reflexivity.
Qed.

Lemma append_inj_r (t : string) :
  forall a b : string, (a ++ t)%string = (b ++ t)%string -> a = b.
Proof.
  induction a as [| c a IH]; intros [| d b] E.
  - reflexivity.
  - exfalso. apply (f_equal String.length) in E.
    rewrite !str_length_append in E. cbn [String.length] in E. lia.
  - exfalso. apply (f_equal String.length) in E.
    rewrite !str_length_append in E. cbn [String.length] in E. lia.
  - cbn [append] in E. injection E as Ec Et. rewrite Ec.
    f_equal. apply IH. exact Et.
Qed.

Lemma to_int_not_nil (n : Z) :
  Z.to_int n <> Decimal.Pos Decimal.Nil
  /\ Z.to_int n <> Decimal.Neg Decimal.Nil.
Proof.
  destruct n as [| p | p]; cbn [Z.to_int]; split; intros E;
    try discriminate E; injection E as E;
    apply (DecimalPos.Unsigned.to_uint_nonnil p E).
Qed.

Lemma str_of_int_inj (a b : Z) : str_of_int a = str_of_int b -> a = b.
Proof.
  unfold str_of_int. intros E. apply DecimalZ.to_int_inj.
  destruct (to_int_not_nil a) as [A1 A2].
  destruct (to_int_not_nil b) as [B1 B2].
  pose proof (DecimalString.NilZero.isi (Z.to_int a) A1 A2) as Ia.
  pose proof (DecimalString.NilZero.isi (Z.to_int b) B1 B2) as Ib.
  rewrite E in Ia. congruence.
Qed.

Lemma format_item_piece_one (nom : string) :
  format_item nom 1 "pièce" = nom.
Proof.
  unfold format_item.
  assert (E : str_eqb "pièce" "pièce" = true)
    by (apply str_eqb_true; reflexivity).
  rewrite E. reflexivity.
Qed.

Lemma format_item_suffix (nom : string) (quantite : Z) (unite : string) :
  (unite = "pièce"%string /\ quantite = 1
   /\ format_item nom quantite unite = nom)
  \/ (unite = "pièce"%string /\ quantite <> 1
      /\ format_item nom quantite unite
         = (nom ++ String " " (String "(" (String "x"
              (str_of_int quantite ++ ")"))))%string)
  \/ (unite <> "pièce"%string
      /\ format_item nom quantite unite
         = (nom ++ String " " (String "("
              (str_of_int quantite ++ unite ++ ")")))%string).
Proof.
  unfold format_item. destruct (str_eqb unite "pièce") eqn:U.
  - apply str_eqb_true in U. destruct (quantite =? 1) eqn:Q.
    + apply Z.eqb_eq in Q. left. auto.
    + apply Z.eqb_neq in Q. right. left. auto.
  - apply str_eqb_false in U. right. right. auto.
Qed.

(** X18. [format_item] shows the bare name exactly for one piece (unit
    pièce, quantity 1); in every case the display starts with the name. *)
Theorem format_item_bare_name (nom : string) (quantite : Z)
    (unite : string) :
  (format_item nom quantite unite = nom
   <-> unite = "pièce"%string /\ quantite = 1)
  /\ exists suffix, format_item nom quantite unite = (nom ++ suffix)%string.
Proof.
  destruct (format_item_suffix nom quantite unite)
    as [(U & Q & E) | [(U & Q & E) | (U & E)]]; rewrite E; split.
  - tauto.
  - exists EmptyString. clear. induction nom as [| c nom IH];
      [reflexivity | cbn [append]; rewrite <- IH; reflexivity].
  - split; [| tauto]. intros H. exfalso.
    apply (append_neq_self nom _) with (2 := eq_sym H). discriminate.
  - eexists. reflexivity.
  - split; [| tauto]. intros H. exfalso.
    apply (append_neq_self nom _) with (2 := eq_sym H). discriminate.
  - eexists. reflexivity.
Qed.

(** X19. For a given name and unit, two different quantities are never
    displayed the same way. *)
Theorem format_item_quantity_injective (nom : string) (q1 q2 : Z)
    (unite : string) :
  format_item nom q1 unite = format_item nom q2 unite -> q1 = q2.
Proof.
  destruct (format_item_suffix nom q1 unite)
    as [(U1 & Q1 & E1) | [(U1 & Q1 & E1) | (U1 & E1)]];
    destruct (format_item_suffix nom q2 unite)
      as [(U2 & Q2 & E2) | [(U2 & Q2 & E2) | (U2 & E2)]];
    rewrite E1, E2; intros H; try congruence.
  - exfalso. apply (append_neq_self nom _) with (2 := H). discriminate.
  - exfalso. apply (append_neq_self nom _) with (2 := eq_sym H).
    discriminate.
  - apply append_inj_l in H. injection H as H.
    apply append_inj_r in H. apply str_of_int_inj. exact H.
  - apply append_inj_l in H. injection H as H.
    apply append_inj_r in H. apply str_of_int_inj. exact H.
Qed.

(** ** The blocks sent to Notion *)

Section BatchFacts.
Context {A : Type}.

Lemma range_from_below (step stop : nat) (fuel : nat) :
  forall start i,
    In i (range_from fuel start stop step) -> (start <= i < stop)%nat.
Proof.
  induction fuel as [| fuel IH]; intros start i I; [destruct I |].
  cbn [range_from] in I. destruct (start <? stop)%nat eqn:B;
    [| destruct I].
  apply Nat.ltb_lt in B. destruct I as [<- | I]; [lia |].
  apply IH in I. lia.
Qed.

Lemma range_from_slices (l : list A) (fuel : nat) :
  forall start,
    (List.length l <= start + fuel)%nat ->
    List.concat (map (fun i => firstn 100 (skipn i l))
                (range_from fuel start (List.length l) 100))
    = skipn start l.
Proof.
  induction fuel as [| fuel IH]; intros start H; cbn [range_from].
  - cbn [map List.concat]. symmetry. apply skipn_all2. lia.
  - destruct (start <? List.length l)%nat eqn:B.
    + cbn [map List.concat]. rewrite IH by lia.
      rewrite (Nat.add_comm start 100), <- skipn_skipn.
      apply firstn_skipn.
    + apply Nat.ltb_ge in B. cbn [map List.concat]. symmetry.
      apply skipn_all2. exact B.
Qed.

Lemma batches_cover (children : list A) :
  first_batch children ++ List.concat (next_batches children) = children.
Proof.
  unfold first_batch, next_batches.
  destruct (100 <? List.length children)%nat eqn:B.
  - unfold py_range. rewrite range_from_slices by lia. apply firstn_skipn.
  - apply Nat.ltb_ge in B. cbn [List.concat]. rewrite app_nil_r.
    apply firstn_all2. exact B.
Qed.

(** X20. The first 100 blocks sent with the page and the batches patched
    in afterwards together are the list of blocks, each block once and in
    order; the first batch has at most 100 blocks, every later batch
    between 1 and 100, and there is no later batch for 100 blocks or
    fewer. *)
Theorem notion_batches_partition (children : list A) :
  first_batch children ++ List.concat (next_batches children) = children
  /\ (List.length (first_batch children) <= 100)%nat
  /\ Forall (fun batch => (1 <= List.length batch <= 100)%nat)
            (next_batches children)
  /\ ((List.length children <= 100)%nat -> next_batches children = []).
Proof.
  split; [apply batches_cover |]. split; [apply firstn_le_length |]. split.
  - unfold next_batches.
    destruct (100 <? List.length children)%nat; [| constructor].
    apply Forall_forall. intros batch I. apply in_map_iff in I.
    destruct I as (i & <- & Ii). unfold py_range in Ii.
    apply range_from_below in Ii.
    rewrite length_firstn, length_skipn. lia.
  - intros H. unfold next_batches.
    destruct (100 <? List.length children)%nat eqn:B; [| reflexivity].
    apply Nat.ltb_lt in B. lia.
Qed.

End BatchFacts.




(** ** The recipe forms *)

Section FormFacts.
Variable lower : string -> string.
Variable strip : string -> string.

Lemma recipe_keys_app (rs1 rs2 : list recette) :
  recipe_keys lower (rs1 ++ rs2)
  = recipe_keys lower rs1 ++ recipe_keys lower rs2.
Proof.
  unfold recipe_keys. apply map_app.
Qed.

Lemma rename_first_keys_In (choix new_name : string)
    (ings : list ingredient) (recettes : list recette) (k : string) :
  In k (recipe_keys lower (rename_first choix new_name ings recettes)) ->
  k = lower new_name \/ In k (recipe_keys lower recettes).
Proof.
  induction recettes as [| r rest IH]; cbn [rename_first]; [intros [] |].
  destruct (str_eqb (recette_nom r) choix).
  - intros [E | I]; [left; symmetry; exact E | right; right; exact I].
  - intros [E | I]; [right; left; exact E |].
    destruct (IH I) as [H | H]; [left; exact H | right; right; exact H].
Qed.

Lemma rename_first_NoDup (choix new_name : string)
    (ings : list ingredient) (recettes : list recette) :
  NoDup (recipe_keys lower recettes) ->
  ~ In (lower new_name)
       (recipe_keys lower
          (filter (fun r => negb (str_eqb (recette_nom r) choix))
                  recettes)) ->
  NoDup (recipe_keys lower (rename_first choix new_name ings recettes)).
Proof.
  induction recettes as [| r rest IH]; intros ND Fresh;
    cbn [rename_first]; [constructor |].
  inversion ND as [| ? ? Hn ND']; subst.
  cbn [filter] in Fresh. destruct (str_eqb (recette_nom r) choix) eqn:E.
  - cbn [negb] in Fresh. apply str_eqb_true in E.
    change (recipe_keys lower (mk_recette new_name ings :: rest))
      with (lower new_name :: recipe_keys lower rest).
    constructor; [| exact ND'].
    intros I. apply Fresh. unfold recipe_keys in *.
    apply in_map_iff in I. destruct I as (r' & Er & Ir).
    apply in_map_iff. exists r'. split; [exact Er |].
    apply filter_In. split; [exact Ir |].
    apply negb_true_iff, str_eqb_false. intros Ec.
    apply Hn. apply in_map_iff. exists r'. split; [| exact Ir].
    congruence.
  - cbn [negb] in Fresh.
    change (recipe_keys lower (r :: ?l))
      with (lower (recette_nom r) :: recipe_keys lower l) in *.
    constructor.
    + intros I. apply rename_first_keys_In in I. destruct I as [I | I].
      * apply Fresh. left. exact I.
      * apply Hn. exact I.
    + apply IH; [exact ND' |]. intros I. apply Fresh. right. exact I.
Qed.

(** X22. The three buttons of the recipe forms keep recipe names distinct
    up to case: when no two recipes of the store have the same lowercased
    name, the same holds of the recipes saved by "Enregistrer la recette"
    and by "Enregistrer les modifications", and of those left by the
    deletion of a recipe. *)
Theorem recipe_forms_keep_names_distinct (recettes : list recette)
    (catalogue : list cat_rayon) (choix recipe_name : string)
    (new_recipe_ingredients : list ingredient) :
  NoDup (recipe_keys lower recettes) ->
  (forall rs c b,
      save_new_recipe lower strip recettes catalogue recipe_name
        new_recipe_ingredients = FormSaved rs c b ->
      NoDup (recipe_keys lower rs))
  /\ (forall rs c b,
        save_edited_recipe lower strip recettes catalogue choix recipe_name
          new_recipe_ingredients = FormSaved rs c b ->
        NoDup (recipe_keys lower rs))
  /\ NoDup (recipe_keys lower (delete_recipe choix recettes)).
Proof.
  intros ND. split; [| split].
  - intros rs c b. unfold save_new_recipe.
    destruct (str_eqb (strip recipe_name) EmptyString); [discriminate |].
    destruct (str_in (lower (strip recipe_name))
                (map (fun r => lower (recette_nom r)) recettes)) eqn:I;
      [discriminate |].
    intros E. injection E as <- _ _. apply str_in_false in I.
    rewrite recipe_keys_app.
    apply Permutation_NoDup
      with (l := lower (strip recipe_name) :: recipe_keys lower recettes).
    + apply Permutation_cons_append.
    + constructor; [exact I | exact ND].
  - intros rs c b. unfold save_edited_recipe.
    destruct (str_eqb (strip recipe_name) EmptyString); [discriminate |].
    destruct (str_in (lower (strip recipe_name))
                (map (fun r => lower (recette_nom r))
                     (filter (fun r => negb (str_eqb (recette_nom r) choix))
                             recettes))) eqn:I; [discriminate |].
    intros E. injection E as <- _ _. apply str_in_false in I.
    apply rename_first_NoDup; [exact ND | exact I].
  - unfold delete_recipe, recipe_keys. apply NoDup_map_filter. exact ND.
Qed.

End FormFacts.

(** ** Instances of the further properties *)

Lemma build_final_list_combines_witness :
  collision_free ascii_lower
    (flatten_grouping recipe_items ++ flatten_grouping free_items) = true
  /\ grouping_total ascii_lower
       (build_final_list ascii_lower recipe_items free_items)
       ("milk"%string, dairy, "L"%string)
     = qsum ascii_lower (flatten_grouping recipe_items)
         ("milk"%string, dairy, "L"%string)
       + qsum ascii_lower (flatten_grouping free_items)
           ("milk"%string, dairy, "L"%string).
Proof.
  split; [vm_compute; reflexivity |].
  apply (build_final_list_combines ascii_lower recipe_items free_items).
  vm_compute. reflexivity.
Defined.

Lemma sorted_list_keys_NoDup : NoDup (Dict.keys sorted_list).
Proof.
  apply NoDup_cons; [| apply NoDup_cons; [| apply NoDup_nil]].
  - intros [E | []]. discriminate E.
  - intros [].
Defined.

Lemma sorted_list_nonempty :
  forall r items, In (r, items) sorted_list -> items <> [].
Proof.
  intros r items I.
  destruct I as [E | [E | []]]; injection E as <- <-; discriminate.
Defined.

Lemma sorted_list_shopping_list : shopping_list ascii_lower sorted_list.
Proof.
  constructor.
  - exact sorted_list_keys_NoDup.
  - exact sorted_list_nonempty.
  - intros r items I.
    destruct I as [E | [E | []]]; injection E as <- <-; unfold items_sorted.
    + apply SSorted_cons; [apply SSorted_nil | apply Forall_nil].
    + apply SSorted_cons;
        [apply SSorted_cons; [apply SSorted_nil | apply Forall_nil] |].
      apply Forall_cons; [| apply Forall_nil]. vm_compute. reflexivity.
Defined.

Lemma subtract_stock_keeps_shopping_list_witness :
  shopping_list ascii_lower sorted_list
  /\ shopping_list ascii_lower
       (subtract_stock ascii_lower sorted_list milk_stock).
Proof.
  split; [exact sorted_list_shopping_list |].
  apply (subtract_stock_keeps_shopping_list ascii_lower sorted_list
           milk_stock).
  exact sorted_list_shopping_list.
Defined.

Lemma frozen_stock_misses :
  stock_misses ascii_lower sorted_list frozen_stock.
Proof.
  intros r items x Ir Ix.
  destruct Ir as [E | [E | []]]; injection E as <- <-;
    repeat (destruct Ix as [<- | Ix]); try destruct Ix;
    vm_compute; reflexivity.
Defined.

Lemma subtract_stock_unrelated_witness :
  NoDup (Dict.keys sorted_list)
  /\ (forall r items, In (r, items) sorted_list -> items <> [])
  /\ stock_misses ascii_lower sorted_list frozen_stock
  /\ subtract_stock ascii_lower sorted_list frozen_stock = sorted_list.
Proof.
  split; [exact sorted_list_keys_NoDup |].
  split; [exact sorted_list_nonempty |].
  split; [exact frozen_stock_misses |].
  apply (subtract_stock_unrelated ascii_lower sorted_list frozen_stock).
  - exact sorted_list_keys_NoDup.
  - exact sorted_list_nonempty.
  - exact frozen_stock_misses.
Defined.

Lemma milk_stock_nonnegative : stock_nonnegative milk_stock.
Proof.
  intros r items x Ir Ix.
  destruct Ir as [E | [E | []]]; injection E as <- <-;
    repeat (destruct Ix as [<- | Ix]); try destruct Ix;
    vm_compute; discriminate.
Defined.

Lemma milk_left_in_dairy :
  In (dairy, [("Butter"%string, 1, "pièce"%string);
              ("Milk"%string, 1, "L"%string)])
     (subtract_stock ascii_lower sorted_list milk_stock).
Proof.
  vm_compute. left. reflexivity.
Defined.

Lemma subtract_stock_never_increases_witness :
  NoDup (Dict.keys sorted_list)
  /\ stock_nonnegative milk_stock
  /\ exists old x,
       In (dairy, old) sorted_list /\ In x old
       /\ item_nom ("Milk"%string, 1, "L"%string) = item_nom x
       /\ item_unite ("Milk"%string, 1, "L"%string) = item_unite x
       /\ item_quantite ("Milk"%string, 1, "L"%string) <= item_quantite x.
Proof.
  split; [exact sorted_list_keys_NoDup |].
  split; [exact milk_stock_nonnegative |].
  apply (subtract_stock_never_increases ascii_lower sorted_list milk_stock
           sorted_list_keys_NoDup milk_stock_nonnegative dairy
           [("Butter"%string, 1, "pièce"%string);
            ("Milk"%string, 1, "L"%string)]
           ("Milk"%string, 1, "L"%string)).
  - exact milk_left_in_dairy.
  - right. left. reflexivity.
Defined.




Example compute_final_list_sample :
  compute_final_list ascii_lower sample_recettes ["Crepes"%string]
    free_items milk_stock
  = [(dairy, [("Butter"%string, 1, "pièce"%string);
              ("Eggs"%string, 1, "pièce"%string);
              ("Milk"%string, 2, "L"%string)])].
Proof. vm_compute. reflexivity. Qed.

Lemma format_item_quantity_injective_witness :
  format_item "Lait" 2 "L" = format_item "Lait" 2 "L" /\ 2 = 2.
Proof.
  split; [reflexivity |].
  apply (format_item_quantity_injective "Lait" 2 2 "L"). reflexivity.
Defined.

Example format_item_samples :
  format_item "Poulet" 1 "pièce" = "Poulet"%string
  /\ format_item "Oeufs" 6 "pièce" = "Oeufs (x6)"%string
  /\ format_item "Carottes" 450 "g" = "Carottes (450g)"%string.
Proof. repeat split; vm_compute; reflexivity. Qed.

Lemma sample_recettes_distinct :
  NoDup (recipe_keys ascii_lower sample_recettes).
Proof.
  apply NoDup_cons; [| apply NoDup_cons; [| apply NoDup_nil]].
  - intros [E | []]. vm_compute in E. discriminate E.
  - intros [].
Defined.

Lemma recipe_forms_keep_names_distinct_witness :
  NoDup (recipe_keys ascii_lower sample_recettes)
  /\ NoDup (recipe_keys ascii_lower (delete_recipe "Quiche" sample_recettes)).
Proof.
  split; [exact sample_recettes_distinct |].
  exact (proj2 (proj2 (recipe_forms_keep_names_distinct ascii_lower
                         (fun s => s) sample_recettes small_catalogue
                         "Quiche" "Tarte" [] sample_recettes_distinct))).
Defined.

Example recipe_forms_samples :
  save_new_recipe ascii_lower (fun s => s) sample_recettes small_catalogue
    "QUICHE" []
  = FormError "La recette « QUICHE » existe déjà."
  /\ save_edited_recipe ascii_lower (fun s => s) sample_recettes
       small_catalogue "Quiche" "quiche" []
     = FormSaved
         [mk_recette "Crepes"
            [occ "Milk" dairy 1 "L"; mk_ingredient "Eggs" dairy None None];
          mk_recette "quiche" []]
         small_catalogue false.
Proof. split; vm_compute; reflexivity. Qed.
